(** * Word frequencies of subtitle files: a model of [word_frequency.py]

    The development follows the script function by function.  A Python
    [str] is a sequence of Unicode code points, modelled as [list N]; a
    Python [int] is a [Z]; the [Counter] is an insertion-ordered association
    list; the document handed to a parser is the list of raw lines the file
    handle yields. *)

From Stdlib Require Import List NArith ZArith Lia Bool String Ascii.
From Stdlib Require Import Permutation Sorted.
Import ListNotations.

(** ** Strings *)

Definition pystr := list N.

(** An ASCII literal as a sequence of code points. *)
Definition str (s : string) : pystr :=
  List.map N_of_ascii (list_ascii_of_string s).

Definition pystr_eqb (a b : pystr) : bool :=
  if list_eq_dec N.eq_dec a b then true else false.

Definition is_empty (s : pystr) : bool :=
  match s with [] => true | _ => false end.

(** ** The interpreter's character tables

    The rows of the Unicode database below U+0080 are written out.  The
    rows from U+0080 on are data of the interpreter, not of the script: they
    are the fields of a [UnicodeData]. *)

Record UnicodeData := {
  uni_isspace : N -> bool;
  uni_isalnum : N -> bool;
  uni_isdecimal : N -> bool;
  uni_isdigit : N -> bool;
  uni_tolower : N -> list N;
  uni_iscased : N -> bool;
  uni_iscaseignorable : N -> bool
}.

Definition between (lo hi c : N) : bool := (lo <=? c)%N && (c <=? hi)%N.

(** [_Py_ascii_whitespace]: TAB, LF, VT, FF, CR, FS, GS, RS, US and SPACE. *)
Definition ascii_whitespace (c : N) : bool :=
  between 9 13 c || between 28 32 c.

Definition ascii_isdigit (c : N) : bool := between 48 57 c.

Definition ascii_isalnum (c : N) : bool :=
  between 48 57 c || between 65 90 c || between 97 122 c.

Definition ascii_tolower (c : N) : N :=
  if between 65 90 c then (c + 32)%N else c.

Section Unicode.

Variable U : UnicodeData.

Definition Py_UNICODE_ISSPACE (c : N) : bool :=
  if (c <? 128)%N then ascii_whitespace c else uni_isspace U c.

Definition Py_UNICODE_ISALNUM (c : N) : bool :=
  if (c <? 128)%N then ascii_isalnum c else uni_isalnum U c.

Definition Py_UNICODE_ISDECIMAL (c : N) : bool :=
  if (c <? 128)%N then ascii_isdigit c else uni_isdecimal U c.

Definition Py_UNICODE_ISDIGIT (c : N) : bool :=
  if (c <? 128)%N then ascii_isdigit c else uni_isdigit U c.

Definition tolower_full (c : N) : list N :=
  if (c <? 128)%N then [ascii_tolower c] else uni_tolower U c.

(** The regular-expression classes [\w], [\s] and [\d] on a [str] pattern. *)
Definition re_word (c : N) : bool := Py_UNICODE_ISALNUM c || (c =? 95)%N.
Definition re_space (c : N) : bool := Py_UNICODE_ISSPACE c.
Definition re_digit (c : N) : bool := Py_UNICODE_ISDECIMAL c.

(** *** [str.lower]

    Every code point is replaced by its full lowercase mapping, except
    U+03A3 (capital sigma), which becomes U+03C2 in final position of a
    word and U+03C3 elsewhere. *)

Definition capital_sigma : N := 931.
Definition final_small_sigma : N := 962.
Definition small_sigma : N := 963.

Fixpoint skip_case_ignorable (s : pystr) : pystr :=
  match s with
  | [] => []
  | c :: r => if uni_iscaseignorable U c then skip_case_ignorable r else s
  end.

(** [before] is the text to the left of the sigma, nearest code point first. *)
Definition handle_capital_sigma (before after : pystr) : N :=
  let preceded :=
    match skip_case_ignorable before with
    | [] => false
    | c :: _ => uni_iscased U c
    end in
  let final_sigma :=
    preceded &&
    match skip_case_ignorable after with
    | [] => true
    | c :: _ => negb (uni_iscased U c)
    end in
  if final_sigma then final_small_sigma else small_sigma.

Fixpoint do_lower (before s : pystr) : pystr :=
  match s with
  | [] => []
  | c :: r =>
      (if (c =? capital_sigma)%N then [handle_capital_sigma before r]
       else tolower_full c) ++ do_lower (c :: before) r
  end.

Definition str_lower (s : pystr) : pystr := do_lower [] s.

(** *** [str.strip], [str.lstrip], [str.isdigit], [str.startswith] *)

Fixpoint str_lstrip (s : pystr) : pystr :=
  match s with
  | [] => []
  | c :: r => if Py_UNICODE_ISSPACE c then str_lstrip r else s
  end.

Definition str_rstrip (s : pystr) : pystr := rev (str_lstrip (rev s)).

Definition str_strip (s : pystr) : pystr := str_rstrip (str_lstrip s).

Definition str_isdigit (s : pystr) : bool :=
  negb (is_empty s) && forallb Py_UNICODE_ISDIGIT s.

Fixpoint str_startswith (prefix s : pystr) : bool :=
  match prefix, s with
  | [], _ => true
  | p :: prefix', c :: s' => (p =? c)%N && str_startswith prefix' s'
  | _ :: _, [] => false
  end.

(** *** [str.split(sep, maxsplit)] for a one-character separator *)

(** The text before the first [sep] and the text after it. *)
Fixpoint partition_at (sep : N) (s : pystr) : option (pystr * pystr) :=
  match s with
  | [] => None
  | c :: r =>
      if (c =? sep)%N then Some ([], r)
      else match partition_at sep r with
           | Some (a, b) => Some (c :: a, b)
           | None => None
           end
  end.

Fixpoint split_upto (sep : N) (splits : nat) (s : pystr) : list pystr :=
  match splits with
  | O => [s]
  | S splits' =>
      match partition_at sep s with
      | None => [s]
      | Some (a, b) => a :: split_upto sep splits' b
      end
  end.

(** A negative [maxsplit] puts no limit on the number of splits; a string
    holds at most [length s] separators. *)
Definition str_split (sep : N) (maxsplit : Z) (s : pystr) : list pystr :=
  split_upto sep (if (maxsplit <? 0)%Z then List.length s else Z.to_nat maxsplit) s.

(** *** [str.split()] on runs of whitespace *)

(** [cur] is the word being read, last code point first. *)
Fixpoint split_whitespace_from (cur : pystr) (s : pystr) : list pystr :=
  match s with
  | [] => if is_empty cur then [] else [rev cur]
  | c :: r =>
      if Py_UNICODE_ISSPACE c then
        if is_empty cur then split_whitespace_from [] r
        else rev cur :: split_whitespace_from [] r
      else split_whitespace_from (c :: cur) r
  end.

Definition str_split_whitespace (s : pystr) : list pystr :=
  split_whitespace_from [] s.

(** *** [str.replace(old, new)] for a two-character [old] *)

Fixpoint str_replace2 (o1 o2 : N) (new : pystr) (s : pystr) : pystr :=
  match s with
  | c1 :: ((c2 :: r) as t) =>
      if (c1 =? o1)%N && (c2 =? o2)%N then new ++ str_replace2 o1 o2 new r
      else c1 :: str_replace2 o1 o2 new t
  | _ => s
  end.

End Unicode.

(** ** The script *)

Section Script.

Variable U : UnicodeData.

(** *** Module constants *)

(** [TIME_CODE_RE]: the pattern
    [^\d{2}:\d{2}:\d{2},\d{3}\s+-->\s+\d{2}:\d{2}:\d{2},\d{3}], run by
    [match], which anchors at the start of the line only.  Each piece takes
    the matcher of the rest of the pattern; [\s+] is greedy and gives
    code points back when the rest fails. *)

Definition re_char (p : N -> bool) (k : pystr -> bool) (s : pystr) : bool :=
  match s with
  | c :: r => p c && k r
  | [] => false
  end.

Definition re_lit (c : N) : (pystr -> bool) -> pystr -> bool :=
  re_char (N.eqb c).

Fixpoint re_spaces (k : pystr -> bool) (s : pystr) : bool :=
  match s with
  | c :: r => re_space U c && (re_spaces k r || k r)
  | [] => false
  end.

Definition re_d2 (k : pystr -> bool) : pystr -> bool :=
  re_char (re_digit U) (re_char (re_digit U) k).

Definition re_d3 (k : pystr -> bool) : pystr -> bool :=
  re_char (re_digit U) (re_d2 k).

(** [\d{2}:\d{2}:\d{2},\d{3}] *)
Definition re_clock (k : pystr -> bool) : pystr -> bool :=
  re_d2 (re_lit 58 (re_d2 (re_lit 58 (re_d2 (re_lit 44 (re_d3 k)))))).

Definition TIME_CODE_RE_match (line : pystr) : bool :=
  re_clock
    (re_spaces
       (re_lit 45 (re_lit 45 (re_lit 62
          (re_spaces (re_clock (fun _ => true))))))) line.

(** [ASS_OVERRIDE_RE.sub("", text)] for the pattern [\{.*?\}]: a match
    starts at a "{" and ends at the first "}" after it, and [.] does not
    match a line feed. *)

Fixpoint tag_closes (s : pystr) : bool :=
  match s with
  | [] => false
  | c :: r =>
      if (c =? 125)%N then true
      else if (c =? 10)%N then false
      else tag_closes r
  end.

(** [in_tag] says that a match has started and has not met its "}" yet. *)
Fixpoint override_sub (in_tag : bool) (s : pystr) : pystr :=
  match s with
  | [] => []
  | c :: r =>
      if in_tag then override_sub (negb (c =? 125)%N) r
      else if (c =? 123)%N && tag_closes r then override_sub true r
      else c :: override_sub false r
  end.

Definition ASS_OVERRIDE_RE_sub (text : pystr) : pystr :=
  override_sub false text.

(** [PUNCT_RE.sub(" ", s)] for the pattern [[^\w\s]]. *)
Definition PUNCT_RE_sub (s : pystr) : pystr :=
  List.map (fun c => if re_word U c || re_space U c then c else 32%N) s.

(** The keys of [BIDI_MARKS]; each is mapped to the empty string. *)
Definition BIDI_MARKS : list N :=
  [8206; 8207; 8234; 8235; 8236; 8237; 8238; 65279]%N.

Definition is_bidi_mark (c : N) : bool :=
  existsb (N.eqb c) BIDI_MARKS.

Definition translate_BIDI_MARKS (line : pystr) : pystr :=
  filter (fun c => negb (is_bidi_mark c)) line.

(** *** [normalize_line] *)

Definition normalize_line (line : pystr) : pystr :=
  let cleaned := str_lower U (translate_BIDI_MARKS line) in
  let cleaned := PUNCT_RE_sub cleaned in
  cleaned.

(** *** [iter_srt_lines] *)

Definition srt_step (lines : list pystr) (raw_line : pystr) : list pystr :=
  let line := str_strip U raw_line in
  if is_empty line then lines
  else if str_isdigit U line then lines
  else if TIME_CODE_RE_match line then lines
  else lines ++ [line].

Definition iter_srt_lines (handle : list pystr) : list pystr :=
  fold_left srt_step handle [].

(** *** [iter_ass_lines] *)

Record ass_state := {
  ass_lines : list pystr;
  text_index : option nat;
  field_count : option nat
}.

Fixpoint list_index (x : pystr) (l : list pystr) : option nat :=
  match l with
  | [] => None
  | y :: r =>
      if pystr_eqb y x then Some O
      else option_map S (list_index x r)
  end.

(** [line.split(":", 1)[1]] *)
Definition after_colon (line : pystr) : pystr :=
  nth 1 (str_split 58 1 line) [].

Definition ass_step (st : ass_state) (raw_line : pystr) : ass_state :=
  let line := str_strip U raw_line in
  if is_empty line then st
  else if str_startswith (str "Format:") line then
    let fields := List.map (str_strip U) (str_split 44 (-1) (after_colon line)) in
    let field_count' := Some (List.length fields) in
    match list_index (str "Text") fields with
    | Some i =>
        {| ass_lines := ass_lines st; text_index := Some i;
           field_count := field_count' |}
    | None =>
        {| ass_lines := ass_lines st; text_index := text_index st;
           field_count := field_count' |}
    end
  else if str_startswith (str "Dialogue:") line then
    let payload := str_lstrip U (after_colon line) in
    let text :=
      match field_count st with
      | Some (S n) =>
          let parts := str_split 44 (Z.of_nat (S n) - 1) payload in
          match text_index st with
          | Some i =>
              if (i <? List.length parts)%nat then nth i parts []
              else last parts []
          | None => last parts []
          end
      | _ =>
          let parts := str_split 44 9 payload in
          last parts []
      end in
    let text := ASS_OVERRIDE_RE_sub text in
    let text :=
      str_replace2 92 104 (str " ")
        (str_replace2 92 110 (str " ")
           (str_replace2 92 78 (str " ") text)) in
    {| ass_lines := ass_lines st ++ [text]; text_index := text_index st;
       field_count := field_count st |}
  else st.

Definition iter_ass_lines (handle : list pystr) : list pystr :=
  ass_lines
    (fold_left ass_step handle
       {| ass_lines := []; text_index := None; field_count := None |}).

(** *** [count_words] *)

(** A [Counter] keeps its keys in insertion order. *)
Definition Counter := list (pystr * Z).

(** [counts[word] += 1] *)
Fixpoint counter_incr (word : pystr) (counts : Counter) : Counter :=
  match counts with
  | [] => [(word, 1%Z)]
  | (w, n) :: r =>
      if pystr_eqb w word then (w, (n + 1)%Z) :: r
      else (w, n) :: counter_incr word r
  end.

Definition count_line (counts : Counter) (line : pystr) : Counter :=
  let normalized := normalize_line line in
  fold_left (fun counts word => counter_incr word counts)
    (str_split_whitespace U normalized) counts.

Definition count_words (lines : list pystr) : Counter :=
  fold_left count_line lines [].

End Script.

(** *** [write_csv] *)

(** [a < b] on [str]: lexicographic on code points. *)
Fixpoint str_lt (a b : pystr) : bool :=
  match a, b with
  | _, [] => false
  | [], _ :: _ => true
  | x :: a', y :: b' => (x <? y)%N || ((x =? y)%N && str_lt a' b')
  end.

(** [lambda item: (-item[1], item[0])] *)
Definition item_key (item : pystr * Z) : Z * pystr :=
  ((- snd item)%Z, fst item).

(** [k1 < k2] on the key tuples: the first components decide unless they
    are equal. *)
Definition key_lt (k1 k2 : Z * pystr) : bool :=
  (fst k1 <? fst k2)%Z || ((fst k1 =? fst k2)%Z && str_lt (snd k1) (snd k2)).

(** [sorted] is stable: an item goes after every item already placed that
    is not greater than it. *)
Fixpoint insort (x : pystr * Z) (l : list (pystr * Z)) : list (pystr * Z) :=
  match l with
  | [] => [x]
  | y :: r =>
      if key_lt (item_key x) (item_key y) then x :: y :: r
      else y :: insort x r
  end.

Definition sorted (items : list (pystr * Z)) : list (pystr * Z) :=
  fold_left (fun acc x => insort x acc) items [].

(** The rows [writer.writerows] receives, after the header row. *)
Definition sorted_items (counts : list (pystr * Z)) : list (pystr * Z) :=
  sorted counts.

(** *** [build_output_path]

    A [Path] of the POSIX flavour: its root and the names below it. *)

Record Path := { path_root : pystr; path_names : list pystr }.

Definition path_name (p : Path) : pystr := last (path_names p) [].

(** [name.rfind(".")], or [-1]. *)
Fixpoint rfind_from (c : N) (i : Z) (s : pystr) : Z :=
  match s with
  | [] => (-1)%Z
  | x :: r =>
      let later := rfind_from c (i + 1)%Z r in
      if (0 <=? later)%Z then later
      else if (x =? c)%N then i else (-1)%Z
  end.

Definition str_rfind (c : N) (s : pystr) : Z := rfind_from c 0%Z s.

Definition path_suffix (p : Path) : pystr :=
  let name := path_name p in
  let i := str_rfind 46 name in
  if (0 <? i)%Z && (i <? Z.of_nat (List.length name) - 1)%Z
  then skipn (Z.to_nat i) name else [].

Definition path_stem (p : Path) : pystr :=
  let name := path_name p in
  let i := str_rfind 46 name in
  if (0 <? i)%Z && (i <? Z.of_nat (List.length name) - 1)%Z
  then firstn (Z.to_nat i) name else name.

(** The names a string stands for: empty pieces and "." are dropped. *)
Definition parse_names (s : pystr) : list pystr :=
  filter (fun x => negb (is_empty x) && negb (pystr_eqb x (str ".")))
    (str_split 47 (-1) s).

(** Exactly two leading slashes are kept as a root of their own. *)
Definition parse_root (s : pystr) : pystr :=
  if str_startswith (str "/") s then
    if str_startswith (str "//") s && negb (str_startswith (str "///") s)
    then str "//" else str "/"
  else [].

(** [p / s]: an absolute [s] replaces [p]. *)
Definition path_join (p : Path) (s : pystr) : Path :=
  if is_empty (parse_root s)
  then {| path_root := path_root p;
          path_names := path_names p ++ parse_names s |}
  else {| path_root := parse_root s; path_names := parse_names s |}.

(** [p.with_name(name)] raises [ValueError] ([None]) when [p] has no name
    or [name] is not a single name. *)
Definition path_with_name (p : Path) (name : pystr) : option Path :=
  if is_empty (path_name p) then None
  else if is_empty name || existsb (N.eqb 47) name
          || pystr_eqb name (str ".") then None
  else Some {| path_root := path_root p;
               path_names := removelast (path_names p) ++ [name] |}.

Section OutputPath.

Variable U : UnicodeData.

(** The state of the disk, as [Path.exists] and [Path.is_dir] see it. *)
Variable fs_exists : Path -> bool.
Variable fs_is_dir : Path -> bool.

Definition default_name (input_path : Path) : pystr :=
  path_stem input_path ++ str "_word_frequency.csv".

Definition build_output_path (input_path : Path) (output : option Path)
  : option Path :=
  match output with
  | None => path_with_name input_path (default_name input_path)
  | Some output =>
      if fs_exists output && fs_is_dir output
      then Some (path_join output (default_name input_path))
      else if pystr_eqb (str_lower U (path_suffix output)) (str ".csv")
      then Some output
      else Some (path_join output (default_name input_path))
  end.

End OutputPath.

(** *** [iter_subtitle_lines] and [main]

    The parsers open the file themselves; here they are handed the lines
    the path holds. *)

Section Pipeline.

Variable U : UnicodeData.

Definition iter_subtitle_lines (sub_path : Path) (handle : list pystr)
  : list pystr :=
  let suffix := str_lower U (path_suffix sub_path) in
  if pystr_eqb suffix (str ".ass") then iter_ass_lines U handle
  else iter_srt_lines U handle.

(** The state of the disk: what exists, what is a regular file, what is a
    directory, and the lines each file holds. *)
Variable fs_exists : Path -> bool.
Variable fs_is_file : Path -> bool.
Variable fs_is_dir : Path -> bool.
Variable fs_lines : Path -> list pystr.



End Pipeline.

(** ** An excerpt of the Unicode database

    The rows of U+0000 to U+00FF, every whitespace code point, the three
    Greek sigmas, and U+0130 with the combining dot it lowers to.  Every
    other code point is given no property and lowers to itself. *)

Definition in_ranges (rs : list (N * N)) (c : N) : bool :=
  existsb (fun r => between (fst r) (snd r) c) rs.

Definition excerpt_tolower (c : N) : list N :=
  if in_ranges [(192, 214); (216, 222)]%N c then [(c + 32)%N]
  else if (c =? 931)%N then [963%N]
  else if (c =? 304)%N then [105%N; 775%N]
  else [c].

Definition ucd_excerpt : UnicodeData := {|
  uni_isspace :=
    in_ranges [(133, 133); (160, 160); (5760, 5760); (8192, 8202);
               (8232, 8233); (8239, 8239); (8287, 8287); (12288, 12288)]%N;
  uni_isalnum :=
    in_ranges [(170, 170); (178, 179); (181, 181); (185, 186); (188, 190);
               (192, 214); (216, 246); (248, 255); (304, 304);
               (931, 931); (962, 963)]%N;
  uni_isdecimal := fun _ => false;
  uni_isdigit := in_ranges [(178, 179); (185, 185)]%N;
  uni_tolower := excerpt_tolower;
  uni_iscased :=
    in_ranges [(65, 90); (97, 122); (170, 170); (181, 181); (186, 186);
               (192, 214); (216, 246); (248, 255); (304, 304);
               (931, 931); (962, 963)]%N;
  uni_iscaseignorable :=
    in_ranges [(39, 39); (46, 46); (58, 58); (94, 94); (96, 96);
               (168, 168); (173, 173); (175, 175); (180, 180);
               (183, 184); (775, 775)]%N
|}.

(** ** Vocabulary of the specification *)

(** Look-up in a [Counter] as a mapping: the first entry of the word. *)
Fixpoint counter_lookup (counts : list (pystr * Z)) (word : pystr) : option Z :=
  match counts with
  | [] => None
  | (w, n) :: r => if pystr_eqb w word then Some n else counter_lookup r word
  end.

(** The body of the inner loop of [count_words]. *)
Definition add_word (counts : list (pystr * Z)) (word : pystr)
  : list (pystr * Z) :=
  counter_incr word counts.

(** The count a word holds, zero when it is absent. *)
Definition held (o : option Z) : Z :=
  match o with Some n => n | None => 0%Z end.

(** A look-up after [k] more occurrences of the word. *)
Definition bumped (k : nat) (o : option Z) : option Z :=
  match k with
  | O => o
  | S _ => Some (held o + Z.of_nat k)%Z
  end.

(** The sum of all counts of a table. *)
Definition counter_total (counts : list (pystr * Z)) : Z :=
  fold_right (fun item acc => (snd item + acc)%Z) 0%Z counts.

(** The tokens of a sequence of dialogue lines: each line normalized and
    split on runs of whitespace. *)
Definition tokens (U : UnicodeData) (lines : list pystr) : list pystr :=
  flat_map (fun line => str_split_whitespace U (normalize_line U line)) lines.

(** Lexicographic order on code points. *)
Inductive lex_lt : pystr -> pystr -> Prop :=
| lex_lt_nil : forall y b, lex_lt [] (y :: b)
| lex_lt_head : forall x y a b, (x < y)%N -> lex_lt (x :: a) (y :: b)
| lex_lt_tail : forall x a b, lex_lt a b -> lex_lt (x :: a) (x :: b).

(** The export order: count descending, then word ascending. *)
Definition row_order (r1 r2 : pystr * Z) : Prop :=
  (snd r2 < snd r1)%Z
  \/ (snd r1 = snd r2 /\ (lex_lt (fst r1) (fst r2) \/ fst r1 = fst r2)).

(** A clock reading [HH:MM:SS,mmm]. *)
Definition is_clock (U : UnicodeData) (s : pystr) : Prop :=
  exists h1 h2 m1 m2 s1 s2 f1 f2 f3,
    s = [h1; h2; 58; m1; m2; 58; s1; s2; 44; f1; f2; f3]%N
    /\ Forall (fun d => re_digit U d = true) [h1; h2; m1; m2; s1; s2; f1; f2; f3].

(** A non-empty run of whitespace. *)
Definition is_blank (U : UnicodeData) (s : pystr) : Prop :=
  s <> [] /\ Forall (fun c => re_space U c = true) s.

(** A timing range [HH:MM:SS,mmm --> HH:MM:SS,mmm] and nothing else. *)
Definition is_timing_range (U : UnicodeData) (s : pystr) : Prop :=
  exists c1 w1 w2 c2,
    s = c1 ++ w1 ++ str "-->" ++ w2 ++ c2
    /\ is_clock U c1 /\ is_blank U w1 /\ is_blank U w2 /\ is_clock U c2.

(** A line that begins with a timing range. *)
Definition starts_with_timing_range (U : UnicodeData) (line : pystr) : Prop :=
  exists head trailing, line = head ++ trailing /\ is_timing_range U head.

(** A code point [str.lower] leaves as it is, wherever it stands. *)
Definition lowercase_fixed (U : UnicodeData) (d : N) : Prop :=
  d <> capital_sigma /\ tolower_full U d = [d].

(** A code point the punctuation pass keeps. *)
Definition kept_by_punct (U : UnicodeData) (d : N) : bool :=
  re_word U d || re_space U d.

(** What the normalizer relies on in the rows of the Unicode database from
    U+0080 on: the marks of [BIDI_MARKS] are neither word nor whitespace
    code points, and a code point of a lowercase mapping is not the capital
    sigma and is its own lowercase mapping, as are the two small sigmas. *)
Record lowercase_closed (U : UnicodeData) : Prop := {
  bidi_marks_are_format :
    forall c, is_bidi_mark c = true ->
              re_word U c = false /\ re_space U c = false;
  lower_is_lowercase :
    forall c d, In d (tolower_full U c) -> lowercase_fixed U d;
  small_sigmas_are_lowercase :
    tolower_full U final_small_sigma = [final_small_sigma]
    /\ tolower_full U small_sigma = [small_sigma]
}.

(** A [Path] keeps no separator inside a name. *)
Definition names_have_no_separator (p : Path) : Prop :=
  Forall (fun name => ~ In 47%N name) (path_names p).

(** A line the line-timed parser keeps, once stripped. *)
Definition srt_kept (U : UnicodeData) (line : pystr) : Prop :=
  line <> [] /\ str_isdigit U line = false
  /\ ~ starts_with_timing_range U line.

(** The directives of the field-delimited format, read on the stripped
    line. *)
Definition is_header (U : UnicodeData) (raw_line : pystr) : bool :=
  str_startswith (str "Format:") (str_strip U raw_line).

Definition is_dialogue (U : UnicodeData) (raw_line : pystr) : bool :=
  str_startswith (str "Dialogue:") (str_strip U raw_line).

(** Some "{" of the text is followed by a "}" on the same line: the text
    holds a complete override tag. *)
Fixpoint has_override_tag (text : pystr) : bool :=
  match text with
  | [] => false
  | c :: r => ((c =? 123)%N && tag_closes r) || has_override_tag r
  end.

(** The code points [o1] and [o2] occur next to each other, in this
    order. *)
Fixpoint has_pair (o1 o2 : N) (text : pystr) : bool :=
  match text with
  | c1 :: ((c2 :: _) as t) =>
      ((c1 =? o1)%N && (c2 =? o2)%N) || has_pair o1 o2 t
  | _ => false
  end.

(** The number of pieces the payload of a dialogue is split into. *)
Definition columns (field_count : option nat) : nat :=
  match field_count with
  | Some (S n) => S n
  | _ => 10
  end.

(** A payload: the fields before the last, each followed by a comma, then
    the last field. *)
Definition comma_join (fields : list pystr) (last_field : pystr) : pystr :=
  List.concat (List.map (fun f => f ++ [44%N]) fields) ++ last_field.

(** What the field-delimited parser does to the selected text. *)
Definition ass_clean (text : pystr) : pystr :=
  str_replace2 92 104 (str " ")
    (str_replace2 92 110 (str " ")
       (str_replace2 92 78 (str " ") (ASS_OVERRIDE_RE_sub text))).

(** A word of the table: not empty, made of word code points only. *)
Definition is_word (U : UnicodeData) (w : pystr) : Prop :=
  w <> [] /\ Forall (fun c => re_word U c = true /\ re_space U c = false) w.

(** A string that neither begins nor ends with a whitespace code point. *)
Definition is_trimmed (U : UnicodeData) (s : pystr) : Prop :=
  (forall c r, s = c :: r -> Py_UNICODE_ISSPACE U c = false)
  /\ (forall r c, s = r ++ [c] -> Py_UNICODE_ISSPACE U c = false).

(** The field names a header line declares. *)
Definition header_fields (U : UnicodeData) (raw_line : pystr) : list pystr :=
  List.map (str_strip U)
    (str_split 44 (-1) (after_colon (str_strip U raw_line))).

(** A parser state with other lines. *)
Definition with_lines (lines : list pystr) (st : ass_state) : ass_state :=
  {| ass_lines := lines; text_index := text_index st;
     field_count := field_count st |}.

(** What normalization makes of a code point below U+0080: letters are
    lowered, digits, the underscore and whitespace are kept, anything else
    becomes a space. *)
Definition ascii_normalized (c : N) : N :=
  if ascii_isalnum c || (c =? 95)%N || ascii_whitespace c
  then ascii_tolower c else 32%N.

(** The nearest code point of [s] that is not case-ignorable is cased. *)
Definition meets_cased (U : UnicodeData) (s : pystr) : Prop :=
  exists ignorable c rest,
    s = ignorable ++ c :: rest
    /\ Forall (fun x => uni_iscaseignorable U x = true) ignorable
    /\ uni_iscaseignorable U c = false
    /\ uni_iscased U c = true.

(** A capital sigma between the texts [left] and [right] stands in final
    position: a cased code point comes before it and none after it,
    case-ignorable code points not counting. *)
Definition final_sigma_position (U : UnicodeData) (left right : pystr) : Prop :=
  meets_cased U (rev left) /\ ~ meets_cased U right.

(** What lowercasing puts in place of the code point [c] found between
    [left] and [right]: its full lowercase mapping, and for the capital
    sigma the final small sigma in final position, the small sigma
    elsewhere. *)
Definition lowers_to (U : UnicodeData) (left right : pystr) (c : N)
  (piece : pystr) : Prop :=
  (c <> capital_sigma /\ piece = tolower_full U c)
  \/ (c = capital_sigma /\ final_sigma_position U left right
      /\ piece = [final_small_sigma])
  \/ (c = capital_sigma /\ ~ final_sigma_position U left right
      /\ piece = [small_sigma]).

(** The pieces lowercasing gives for the code points of a text, one piece
    for each code point, the text to its left being [left]. *)
Inductive lowered (U : UnicodeData) : pystr -> pystr -> list pystr -> Prop :=
| lowered_nil : forall left, lowered U left [] []
| lowered_cons : forall left c right piece pieces,
    lowers_to U left right c piece ->
    lowered U (left ++ [c]) right pieces ->
    lowered U left (c :: right) (piece :: pieces).

(** * Properties *)

(** ** The field-delimited parser on concrete documents *)

(** C1.  A header without a "Text" field leaves the position recorded from
    an earlier header in place.  After the headers [Format: Text, Name] and
    [Format: Layer, Start, End], the dialogue [Dialogue: a,b,c] yields the
    first field, "a"; under the second header alone the same dialogue
    yields the last field, "c". *)
Theorem second_header_keeps_text_index : forall U,
  iter_ass_lines U
    [str "Format: Text, Name"; str "Format: Layer, Start, End";
     str "Dialogue: a,b,c"] = [str "a"]
  /\ iter_ass_lines U
       [str "Format: Layer, Start, End"; str "Dialogue: a,b,c"] = [str "c"].
Proof.
  intro U. split; reflexivity.
Qed.

(** C2.  The header [Format: Layer, Start, End, Text] followed by the
    dialogue [Dialogue: 0,0:00:01.00,0:00:02.00,Hi, {\pos(1,2)}there\Nfriend]
    yields exactly the text "Hi, there friend", and counting it gives
    hi, there and friend once each. *)
Theorem ass_scenario_counts : forall U,
  let handle :=
    [str "Format: Layer, Start, End, Text";
     str "Dialogue: 0,0:00:01.00,0:00:02.00,Hi, {\pos(1,2)}there\Nfriend"] in
  iter_ass_lines U handle = [str "Hi, there friend"]
  /\ count_words U (iter_ass_lines U handle)
     = [(str "hi", 1%Z); (str "there", 1%Z); (str "friend", 1%Z)].
Proof.
  intro U. split; reflexivity.
Qed.

(** ** The normalizer on concrete lines *)

(** C3.  An underscore is neither alphanumeric nor whitespace, and it
    survives normalization: "snake_case" is returned as it is and counts as
    one word. *)
Theorem underscore_survives_normalization : forall U,
  Py_UNICODE_ISALNUM U 95 = false
  /\ Py_UNICODE_ISSPACE U 95 = false
  /\ normalize_line U (str "snake_case") = str "snake_case"
  /\ count_words U [str "snake_case"] = [(str "snake_case", 1%Z)].
Proof.
  intro U. repeat split; reflexivity.
Qed.

(** C9, as stated, fails: U+00DF is not folded to "ss". *)
Lemma sharp_s_is_not_folded :
  normalize_line ucd_excerpt [223%N] = [223%N]
  /\ normalize_line ucd_excerpt [223%N] <> str "ss".
Proof.
  split; [reflexivity | discriminate].
Qed.


(** ** The counter *)

Lemma pystr_eqb_eq : forall a b, pystr_eqb a b = true <-> a = b.
Proof.
  intros a b. unfold pystr_eqb.
  destruct (list_eq_dec N.eq_dec a b); split; congruence.
Qed.

Lemma pystr_eqb_refl : forall a, pystr_eqb a a = true.
Proof. intro a. now apply pystr_eqb_eq. Qed.

Lemma pystr_eqb_neq : forall a b, a <> b -> pystr_eqb a b = false.
Proof.
  intros a b H. destruct (pystr_eqb a b) eqn:E; [|reflexivity].
  apply pystr_eqb_eq in E. contradiction.
Qed.

Section CounterFacts.

Variable U : UnicodeData.

Lemma count_lines_as_tokens : forall lines counts,
  fold_left (count_line U) lines counts
  = fold_left add_word (tokens U lines) counts.
Proof.
  induction lines as [|line lines IH]; intro counts; simpl.
  - reflexivity.
  - unfold tokens in *. rewrite fold_left_app, IH. reflexivity.
Qed.

Lemma counter_total_incr : forall word counts,
  counter_total (counter_incr word counts) = (counter_total counts + 1)%Z.
Proof.
  induction counts as [|[w n] r IH]; simpl.
  - reflexivity.
  - destruct (pystr_eqb w word); simpl; [lia | rewrite IH; lia].
Qed.

Lemma counter_total_add_words : forall words counts,
  counter_total (fold_left add_word words counts)
  = (counter_total counts + Z.of_nat (List.length words))%Z.
Proof.
  induction words as [|w words IH]; intro counts.
  - simpl. lia.
  - cbn [fold_left List.length]. rewrite IH. unfold add_word.
    rewrite counter_total_incr. lia.
Qed.

Lemma counter_lookup_incr_same : forall word counts,
  counter_lookup (counter_incr word counts) word
  = Some (held (counter_lookup counts word) + 1)%Z.
Proof.
  induction counts as [|[w n] r IH]; simpl.
  - now rewrite pystr_eqb_refl.
  - destruct (pystr_eqb w word) eqn:E; simpl; rewrite E.
    + reflexivity.
    + exact IH.
Qed.

Lemma counter_lookup_incr_other : forall word other counts,
  word <> other ->
  counter_lookup (counter_incr word counts) other
  = counter_lookup counts other.
Proof.
  intros word other counts Hne.
  induction counts as [|[w n] r IH]; simpl.
  - now rewrite pystr_eqb_neq.
  - destruct (pystr_eqb w word) eqn:E; simpl.
    + apply pystr_eqb_eq in E. subst w.
      now rewrite (@pystr_eqb_neq word other Hne).
    + destruct (pystr_eqb w other); [reflexivity | exact IH].
Qed.

Lemma counter_lookup_add_words : forall words counts word,
  counter_lookup (fold_left add_word words counts) word
  = bumped (count_occ (list_eq_dec N.eq_dec) words word)
      (counter_lookup counts word).
Proof.
  induction words as [|w words IH]; intros counts word.
  - reflexivity.
  - cbn [fold_left count_occ]. rewrite IH. unfold add_word at 1.
    destruct (list_eq_dec N.eq_dec w word) as [->|Hne].
    + rewrite counter_lookup_incr_same.
      destruct (count_occ (list_eq_dec N.eq_dec) words word);
        simpl; f_equal; lia.
    + now rewrite counter_lookup_incr_other.
Qed.

End CounterFacts.

(** C6.  The counts of the table add up to the number of tokens of the
    normalized lines. *)
Theorem count_words_total : forall U lines,
  counter_total (count_words U lines)
  = Z.of_nat (List.length (tokens U lines)).
Proof.
  intros U lines. unfold count_words.
  rewrite count_lines_as_tokens, counter_total_add_words. reflexivity.
Qed.

(** C7.  Counting a permutation of the dialogue lines gives the same
    mapping from words to counts. *)
Theorem count_words_permutation : forall U lines lines',
  Permutation lines lines' ->
  forall word,
    counter_lookup (count_words U lines) word
    = counter_lookup (count_words U lines') word.
Proof.
  intros U lines lines' Hperm word. unfold count_words.
  rewrite !count_lines_as_tokens, !counter_lookup_add_words.
  f_equal. apply Permutation_count_occ.
  unfold tokens. now apply Permutation_flat_map.
Qed.

Lemma count_words_permutation_witness :
  Permutation [str "b a"; str "a"] [str "a"; str "b a"]
  /\ forall word,
       counter_lookup (count_words ucd_excerpt [str "b a"; str "a"]) word
       = counter_lookup (count_words ucd_excerpt [str "a"; str "b a"]) word.
Proof.
  split.
  - apply perm_swap.
  - apply (@count_words_permutation ucd_excerpt
             [str "b a"; str "a"] [str "a"; str "b a"]).
    apply perm_swap.
Defined.

(** ** The export order *)

Lemma str_lt_spec : forall a b, str_lt a b = true <-> lex_lt a b.
Proof.
  induction a as [|x a IH]; intros [|y b]; simpl.
  - split; [discriminate | inversion 1].
  - split; [constructor | reflexivity].
  - split; [discriminate | inversion 1].
  - rewrite orb_true_iff, andb_true_iff, N.ltb_lt, N.eqb_eq, IH.
    split.
    + intros [Hlt | [-> Hrec]]; [now apply lex_lt_head | now apply lex_lt_tail].
    + inversion 1; subst; auto.
Qed.

Lemma lex_lt_irrefl : forall a, ~ lex_lt a a.
Proof.
  induction a as [|x a IH]; inversion 1; subst; [lia | auto].
Qed.

Lemma lex_lt_trans : forall a b c, lex_lt a b -> lex_lt b c -> lex_lt a c.
Proof.
  intros a b c Hab. revert c.
  induction Hab; intros c Hbc; inversion Hbc; subst;
    try (constructor; fail).
  - apply lex_lt_head. lia.
  - now apply lex_lt_head.
  - now apply lex_lt_head.
  - apply lex_lt_tail. auto.
Qed.

Lemma lex_lt_total : forall a b, lex_lt a b \/ a = b \/ lex_lt b a.
Proof.
  induction a as [|x a IH]; intros [|y b].
  - auto.
  - left. constructor.
  - right. right. constructor.
  - destruct (N.lt_trichotomy x y) as [H | [-> | H]].
    + left. now apply lex_lt_head.
    + destruct (IH b) as [H | [-> | H]].
      * left. now apply lex_lt_tail.
      * auto.
      * right. right. now apply lex_lt_tail.
    + right. right. now apply lex_lt_head.
Qed.

(** [key_lt] on the keys is the strict part of [row_order]. *)
Lemma key_lt_spec : forall r1 r2,
  key_lt (item_key r1) (item_key r2) = true
  <-> (snd r2 < snd r1)%Z \/ (snd r1 = snd r2 /\ lex_lt (fst r1) (fst r2)).
Proof.
  intros [w1 n1] [w2 n2]. unfold key_lt, item_key. simpl.
  rewrite orb_true_iff, andb_true_iff, Z.ltb_lt, Z.eqb_eq, str_lt_spec.
  split; intros [H | [H1 H2]]; try (left; lia); right; split; auto; lia.
Qed.

Lemma key_lt_row_order : forall r1 r2,
  key_lt (item_key r1) (item_key r2) = true -> row_order r1 r2.
Proof.
  intros r1 r2 H. apply key_lt_spec in H. unfold row_order. tauto.
Qed.

Lemma not_key_lt_row_order : forall r1 r2,
  key_lt (item_key r1) (item_key r2) = false -> row_order r2 r1.
Proof.
  intros r1 r2 H. unfold row_order.
  destruct (Z.lt_trichotomy (snd r1) (snd r2)) as [Hlt | [Heq | Hgt]].
  - now left.
  - right. split; [congruence|].
    destruct (lex_lt_total (fst r2) (fst r1)) as [Hw | [Hw | Hw]]; auto.
    exfalso. assert (key_lt (item_key r1) (item_key r2) = true)
      by (apply key_lt_spec; auto).
    congruence.
  - exfalso. assert (key_lt (item_key r1) (item_key r2) = true)
      by (apply key_lt_spec; left; lia).
    congruence.
Qed.

Lemma row_order_trans : forall r1 r2 r3,
  row_order r1 r2 -> row_order r2 r3 -> row_order r1 r3.
Proof.
  unfold row_order. intros r1 r2 r3 [H12 | [E12 H12]] [H23 | [E23 H23]].
  - left. lia.
  - left. lia.
  - left. lia.
  - right. split; [congruence|].
    destruct H12 as [H12 | H12], H23 as [H23 | H23].
    + left. eapply lex_lt_trans; eauto.
    + left. congruence.
    + left. congruence.
    + right. congruence.
Qed.

Lemma row_order_antisym : forall r1 r2,
  row_order r1 r2 -> row_order r2 r1 -> r1 = r2.
Proof.
  unfold row_order. intros [w1 n1] [w2 n2]. simpl.
  intros [H12 | [E12 H12]] [H21 | [E21 H21]]; try lia.
  subst n2. destruct H12 as [H12 | ->]; [|reflexivity].
  destruct H21 as [H21 | ->]; [|reflexivity].
  exfalso. apply (@lex_lt_irrefl w1). eapply lex_lt_trans; eauto.
Qed.

Lemma insort_permutation : forall x l, Permutation (x :: l) (insort x l).
Proof.
  induction l as [|y r IH]; simpl.
  - reflexivity.
  - destruct (key_lt (item_key x) (item_key y)).
    + reflexivity.
    + rewrite perm_swap. now apply perm_skip.
Qed.

Lemma insort_sorted : forall x l,
  StronglySorted row_order l -> StronglySorted row_order (insort x l).
Proof.
  induction l as [|y r IH]; simpl; intro Hs.
  - repeat constructor.
  - inversion Hs as [|? ? Hr Hy]; subst.
    destruct (key_lt (item_key x) (item_key y)) eqn:E.
    + constructor; [exact Hs|]. apply key_lt_row_order in E.
      constructor; [exact E|].
      eapply Forall_impl; [|exact Hy]. intros z Hz.
      eapply row_order_trans; eauto.
    + constructor; [auto|]. apply not_key_lt_row_order in E.
      eapply Permutation_Forall; [apply insort_permutation|].
      constructor; assumption.
Qed.

Lemma sorted_from_permutation : forall items acc,
  Permutation (items ++ acc)
    (fold_left (fun acc x => insort x acc) items acc).
Proof.
  induction items as [|x items IH]; intro acc; simpl.
  - reflexivity.
  - rewrite <- IH. rewrite <- insort_permutation.
    apply Permutation_middle.
Qed.

Lemma sorted_from_sorted : forall items acc,
  StronglySorted row_order acc ->
  StronglySorted row_order (fold_left (fun acc x => insort x acc) items acc).
Proof.
  induction items as [|x items IH]; intros acc Hacc; simpl.
  - exact Hacc.
  - apply IH. now apply insort_sorted.
Qed.

(** Two arrangements of the same rows in the export order are the same. *)
Lemma row_order_unique : forall l1 l2,
  StronglySorted row_order l1 -> StronglySorted row_order l2 ->
  Permutation l1 l2 -> l1 = l2.
Proof.
  induction l1 as [|a l1 IH]; intros l2 H1 H2 Hp.
  - apply Permutation_nil in Hp. now subst.
  - destruct l2 as [|b l2].
    + symmetry in Hp. apply Permutation_nil in Hp. discriminate.
    + inversion H1 as [|? ? Hs1 Ha]; subst.
      inversion H2 as [|? ? Hs2 Hb]; subst.
      assert (a = b) as ->.
      { assert (Hin_a : In a (b :: l2))
          by (eapply Permutation_in; [exact Hp | now left]).
        assert (Hin_b : In b (a :: l1))
          by (eapply Permutation_in;
              [symmetry; exact Hp | now left]).
        destruct Hin_a as [-> | Hin_a]; [reflexivity|].
        destruct Hin_b as [-> | Hin_b]; [reflexivity|].
        rewrite Forall_forall in Ha, Hb.
        apply row_order_antisym; auto. }
      f_equal. apply IH; auto. eapply Permutation_cons_inv; eauto.
Qed.

(** C5.  The exported rows are the rows of the table, arranged by count
    descending and, for equal counts, by word ascending in code-point order;
    a table holding the same rows yields the identical sequence, whatever
    the order its words were inserted in. *)
Theorem sorted_items_ordered : forall counts,
  StronglySorted row_order (sorted_items counts)
  /\ Permutation counts (sorted_items counts)
  /\ (forall counts', Permutation counts counts' ->
        sorted_items counts' = sorted_items counts).
Proof.
  assert (Hs : forall c, StronglySorted row_order (sorted_items c))
    by (intro c; apply sorted_from_sorted; constructor).
  assert (Hp : forall c, Permutation c (sorted_items c)).
  { intro c. unfold sorted_items, sorted.
    rewrite <- sorted_from_permutation. now rewrite app_nil_r. }
  intro counts. repeat split; auto.
  intros counts' Hperm. apply row_order_unique; auto.
  rewrite <- !Hp. now symmetry.
Qed.

(** ** The normalizer *)

Section NormalizerFacts.

Variable U : UnicodeData.

Lemma PUNCT_RE_sub_kept : forall s d,
  In d (PUNCT_RE_sub U s) -> kept_by_punct U d = true.
Proof.
  intros s d Hin. unfold PUNCT_RE_sub in Hin.
  apply in_map_iff in Hin as [c [Hc _]].
  fold (kept_by_punct U c) in Hc.
  destruct (kept_by_punct U c) eqn:E; subst d; [exact E | reflexivity].
Qed.

Lemma PUNCT_RE_sub_from : forall s d,
  In d (PUNCT_RE_sub U s) -> In d s \/ d = 32%N.
Proof.
  intros s d Hin. unfold PUNCT_RE_sub in Hin.
  apply in_map_iff in Hin as [c [Hc Hin]].
  destruct (re_word U c || re_space U c); subst d; auto.
Qed.

Lemma PUNCT_RE_sub_fixed : forall s,
  (forall d, In d s -> kept_by_punct U d = true) -> PUNCT_RE_sub U s = s.
Proof.
  induction s as [|c s IH]; intro H; simpl.
  - reflexivity.
  - fold (kept_by_punct U c). rewrite (H c) by now left.
    f_equal. apply IH. intros d Hd. apply H. now right.
Qed.

Lemma translate_BIDI_MARKS_fixed : forall s,
  (forall d, In d s -> is_bidi_mark d = false) -> translate_BIDI_MARKS s = s.
Proof.
  induction s as [|c s IH]; intro H; simpl.
  - reflexivity.
  - rewrite (H c) by now left. simpl.
    f_equal. apply IH. intros d Hd. apply H. now right.
Qed.

Lemma do_lower_fixed : forall s before,
  (forall d, In d s -> lowercase_fixed U d) -> do_lower U before s = s.
Proof.
  induction s as [|c s IH]; intros before H; simpl.
  - reflexivity.
  - destruct (H c) as [Hne Hlow]; [now left|].
    apply N.eqb_neq in Hne. rewrite Hne, Hlow. simpl.
    f_equal. apply IH. intros d Hd. apply H. now right.
Qed.

Lemma space_lowercase_fixed : lowercase_fixed U 32.
Proof. split; [discriminate | reflexivity]. Qed.

Hypothesis closed : lowercase_closed U.

Lemma handle_capital_sigma_fixed : forall before after,
  lowercase_fixed U (handle_capital_sigma U before after).
Proof.
  intros before after. unfold handle_capital_sigma.
  destruct closed as [_ _ [Hfinal Hsmall]].
  match goal with |- context [if ?b then _ else _] => destruct b end;
    (split; [discriminate | assumption]).
Qed.

Lemma do_lower_lowercase : forall s before d,
  In d (do_lower U before s) -> lowercase_fixed U d.
Proof.
  induction s as [|c s IH]; intros before d Hin; simpl in Hin.
  - contradiction.
  - apply in_app_or in Hin as [Hin | Hin]; [|eauto].
    destruct (c =? capital_sigma)%N.
    + destruct Hin as [<- | []]. apply handle_capital_sigma_fixed.
    + eapply lower_is_lowercase; eauto.
Qed.

Lemma kept_is_not_bidi_mark : forall d,
  kept_by_punct U d = true -> is_bidi_mark d = false.
Proof.
  intros d Hkept. destruct (is_bidi_mark d) eqn:E; [|reflexivity].
  apply (bidi_marks_are_format U closed) in E as [Hw Hs].
  unfold kept_by_punct in Hkept. rewrite Hw, Hs in Hkept. discriminate.
Qed.

Lemma normalize_line_settled : forall line d,
  In d (normalize_line U line) ->
  kept_by_punct U d = true /\ lowercase_fixed U d.
Proof.
  intros line d Hin. unfold normalize_line in Hin. split.
  - eapply PUNCT_RE_sub_kept; eauto.
  - apply PUNCT_RE_sub_from in Hin as [Hin | ->].
    + eapply do_lower_lowercase; eauto.
    + apply space_lowercase_fixed.
Qed.

End NormalizerFacts.

(** C8.  Normalizing a normalized line gives the same line, over a
    Unicode database whose lowercase mappings are lowercase and whose
    bidirectional marks are neither word nor whitespace code points. *)
Theorem normalize_line_idempotent : forall U line,
  lowercase_closed U ->
  normalize_line U (normalize_line U line) = normalize_line U line.
Proof.
  intros U line closed.
  pose proof (@normalize_line_settled U closed line) as Hout.
  set (out := normalize_line U line) in *.
  unfold normalize_line at 1.
  rewrite translate_BIDI_MARKS_fixed.
  - unfold str_lower. rewrite do_lower_fixed by (intros d Hd; now apply Hout).
    apply PUNCT_RE_sub_fixed. intros d Hd. now apply Hout.
  - intros d Hd. apply (@kept_is_not_bidi_mark U closed). now apply Hout.
Qed.

(** The excerpt meets what the normalizer relies on. *)

Lemma excerpt_fixed_below_128 : forall d,
  (d < 128)%N -> (d < 65 \/ 90 < d)%N -> tolower_full ucd_excerpt d = [d].
Proof.
  intros d Hd Hcase. unfold tolower_full, ascii_tolower, between.
  apply N.ltb_lt in Hd. rewrite Hd.
  destruct (N.leb_spec 65 d), (N.leb_spec d 90); cbn [andb];
    try reflexivity; lia.
Qed.

Lemma excerpt_fixed_from_128 : forall d,
  (128 <= d)%N -> (d < 192 \/ d = 215 \/ 222 < d)%N ->
  d <> 931%N -> d <> 304%N -> tolower_full ucd_excerpt d = [d].
Proof.
  intros d Hd Hcase Hsigma Hdot. unfold tolower_full.
  apply N.ltb_ge in Hd. rewrite Hd.
  cbn [uni_tolower ucd_excerpt].
  unfold excerpt_tolower, in_ranges, existsb, between, fst, snd.
  apply N.eqb_neq in Hsigma, Hdot. rewrite Hsigma, Hdot.
  destruct (N.leb_spec 192 d), (N.leb_spec d 214),
    (N.leb_spec 216 d), (N.leb_spec d 222); cbn [andb orb];
    try reflexivity; lia.
Qed.

Lemma excerpt_lower_is_lowercase : forall c d,
  In d (tolower_full ucd_excerpt c) -> lowercase_fixed ucd_excerpt d.
Proof.
  intros c d. unfold lowercase_fixed, capital_sigma.
  unfold tolower_full at 1. destruct (N.ltb_spec c 128) as [Hc | Hc].
  - unfold ascii_tolower, between.
    destruct (N.leb_spec 65 c), (N.leb_spec c 90); cbn [andb];
      intros [<- | []]; (split; [lia|]);
      apply excerpt_fixed_below_128; lia.
  - cbn [uni_tolower ucd_excerpt].
    unfold excerpt_tolower, in_ranges, existsb, between, fst, snd.
    destruct (N.leb_spec 192 c), (N.leb_spec c 214),
      (N.leb_spec 216 c), (N.leb_spec c 222); cbn [andb orb];
      try lia;
      try (intros [<- | []]; (split; [lia|]);
           apply excerpt_fixed_from_128; lia).
    all: destruct (N.eqb_spec c 931) as [-> | Hs];
      [intros [<- | []]; split; [discriminate | reflexivity]|].
    all: destruct (N.eqb_spec c 304) as [-> | Hd];
      [intros [<- | [<- | []]]; split;
       solve [discriminate | reflexivity]|].
    all: intros [<- | []]; (split; [lia|]);
      apply excerpt_fixed_from_128; lia.
Qed.

Lemma excerpt_lowercase_closed : lowercase_closed ucd_excerpt.
Proof.
  constructor.
  - intros c H. unfold is_bidi_mark, BIDI_MARKS, existsb in H.
    repeat (apply orb_true_iff in H as [H | H];
            [apply N.eqb_eq in H; subst c; split; reflexivity|]).
    discriminate.
  - exact excerpt_lower_is_lowercase.
  - split; reflexivity.
Qed.

Lemma normalize_line_idempotent_witness :
  lowercase_closed ucd_excerpt
  /\ normalize_line ucd_excerpt
       (normalize_line ucd_excerpt (str "Don't_Stop" ++ [8206; 931; 304]%N))
     = normalize_line ucd_excerpt (str "Don't_Stop" ++ [8206; 931; 304]%N).
Proof.
  split.
  - exact excerpt_lowercase_closed.
  - apply (@normalize_line_idempotent ucd_excerpt
             (str "Don't_Stop" ++ [8206; 931; 304]%N)).
    exact excerpt_lowercase_closed.
Defined.

Section LowercaseFacts.

Variable U : UnicodeData.

Lemma skip_case_ignorable_split : forall s,
  exists ignorable,
    s = ignorable ++ skip_case_ignorable U s
    /\ Forall (fun x => uni_iscaseignorable U x = true) ignorable
    /\ match skip_case_ignorable U s with
       | [] => True
       | c :: _ => uni_iscaseignorable U c = false
       end.
Proof.
  induction s as [|x s (ign & Hs & Hign & Hhead)]; simpl.
  - exists []. repeat split; constructor.
  - destruct (uni_iscaseignorable U x) eqn:Hx.
    + exists (x :: ign). split; [simpl; now f_equal|].
      split; [now constructor | exact Hhead].
    + exists []. repeat split; [constructor | exact Hx].
Qed.

Lemma skip_case_ignorable_stops : forall ignorable c rest,
  Forall (fun x => uni_iscaseignorable U x = true) ignorable ->
  uni_iscaseignorable U c = false ->
  skip_case_ignorable U (ignorable ++ c :: rest) = c :: rest.
Proof.
  intros ignorable c rest Hign Hc.
  induction Hign as [|x ign Hx Hign IH]; simpl.
  - now rewrite Hc.
  - now rewrite Hx.
Qed.

Lemma meets_cased_skip : forall s,
  meets_cased U s
  <-> match skip_case_ignorable U s with
      | [] => False
      | c :: _ => uni_iscased U c = true
      end.
Proof.
  intro s. split.
  - intros (ign & c & rest & -> & Hign & Hc & Hcased).
    now rewrite skip_case_ignorable_stops.
  - destruct (skip_case_ignorable_split s) as (ign & Hs & Hign & Hhead).
    destruct (skip_case_ignorable U s) as [|c rest]; [contradiction|].
    intro Hcased. now exists ign, c, rest.
Qed.

Lemma handle_capital_sigma_position : forall left right,
  (final_sigma_position U left right
   /\ handle_capital_sigma U (rev left) right = final_small_sigma)
  \/ (~ final_sigma_position U left right
      /\ handle_capital_sigma U (rev left) right = small_sigma).
Proof.
  intros left right. unfold final_sigma_position, handle_capital_sigma.
  rewrite !meets_cased_skip.
  destruct (skip_case_ignorable U (rev left)) as [|b _].
  - right. split; [tauto | reflexivity].
  - destruct (uni_iscased U b).
    + destruct (skip_case_ignorable U right) as [|a _].
      * left. split; [tauto | reflexivity].
      * destruct (uni_iscased U a); cbn [negb andb].
        -- right. split; [tauto | reflexivity].
        -- left. split; [split; [reflexivity | discriminate] | reflexivity].
    + right. split; [|reflexivity]. intros [H _]. discriminate.
Qed.

Lemma do_lower_lowered : forall s left,
  exists pieces,
    lowered U left s pieces
    /\ do_lower U (rev left) s = List.concat pieces.
Proof.
  induction s as [|c s IH]; intro left.
  - exists []. split; [constructor | reflexivity].
  - destruct (IH (left ++ [c])) as (pieces & Hpieces & Hlower).
    rewrite rev_unit in Hlower. cbn [do_lower]. rewrite Hlower.
    destruct (N.eqb_spec c capital_sigma) as [-> | Hne].
    + exists ([handle_capital_sigma U (rev left) s] :: pieces).
      split; [|reflexivity]. constructor; [|exact Hpieces].
      destruct (handle_capital_sigma_position left s) as [[Hpos ->] | [Hpos ->]].
      * right. left. auto.
      * right. right. auto.
    + exists (tolower_full U c :: pieces).
      split; [|reflexivity]. constructor; [|exact Hpieces].
      left. auto.
Qed.

End LowercaseFacts.

(** C9, amended.  The normalizer lowercases, it does not case-fold: after
    the mark removal every code point is replaced by its full lowercase
    mapping, the capital sigma by the final small sigma in final position
    and by the small sigma elsewhere, and the punctuation pass runs over
    the result.  A line whose code points are their own lowercase mapping
    and are kept by the two other passes, such as one with U+00DF, is
    returned as it is. *)
Theorem normalize_line_lowercases : forall U line,
  (exists pieces,
      lowered U [] (translate_BIDI_MARKS line) pieces
      /\ normalize_line U line = PUNCT_RE_sub U (List.concat pieces))
  /\ ((forall c, In c line ->
         lowercase_fixed U c /\ kept_by_punct U c = true
         /\ is_bidi_mark c = false) ->
      normalize_line U line = line).
Proof.
  intros U line. split.
  - destruct (do_lower_lowered U (translate_BIDI_MARKS line) [])
      as (pieces & Hpieces & Hlower).
    exists pieces. split; [exact Hpieces|].
    unfold normalize_line, str_lower. now rewrite <- Hlower.
  - intro Hfixed. unfold normalize_line, str_lower.
    rewrite translate_BIDI_MARKS_fixed by (intros d Hd; now apply Hfixed).
    rewrite do_lower_fixed by (intros d Hd; now apply Hfixed).
    apply PUNCT_RE_sub_fixed. intros d Hd. now apply Hfixed.
Qed.

Lemma normalize_line_lowercases_witness :
  (forall c, In c (str "stra" ++ 223%N :: str "e") ->
     lowercase_fixed ucd_excerpt c /\ kept_by_punct ucd_excerpt c = true
     /\ is_bidi_mark c = false)
  /\ normalize_line ucd_excerpt (str "stra" ++ 223%N :: str "e")
     = str "stra" ++ 223%N :: str "e".
Proof.
  assert (H : forall c, In c (str "stra" ++ 223%N :: str "e") ->
                lowercase_fixed ucd_excerpt c
                /\ kept_by_punct ucd_excerpt c = true
                /\ is_bidi_mark c = false).
  { intros c Hc. simpl in Hc.
    repeat (destruct Hc as [<- | Hc];
            [split; [split; [discriminate | reflexivity]
                    | split; reflexivity]|]).
    contradiction. }
  split; [exact H|].
  exact (proj2 (@normalize_line_lowercases ucd_excerpt
                  (str "stra" ++ 223%N :: str "e")) H).
Defined.

(** ** The output path *)

Lemma partition_at_absent : forall sep s,
  ~ In sep s -> partition_at sep s = None.
Proof.
  induction s as [|c s IH]; intro H; simpl.
  - reflexivity.
  - destruct (N.eqb_spec c sep) as [-> | Hne].
    + exfalso. apply H. now left.
    + rewrite IH; [reflexivity|]. intro Hin. apply H. now right.
Qed.

Lemma str_split_absent : forall sep maxsplit s,
  ~ In sep s -> str_split sep maxsplit s = [s].
Proof.
  intros sep maxsplit s H. unfold str_split.
  destruct (if (maxsplit <? 0)%Z then List.length s else Z.to_nat maxsplit);
    simpl; [reflexivity|].
  now rewrite partition_at_absent.
Qed.

Lemma path_name_no_separator : forall p,
  names_have_no_separator p -> ~ In 47%N (path_name p).
Proof.
  intros [root names] H. unfold names_have_no_separator, path_name in *.
  simpl in *. induction H as [|n names Hn Hnames IH]; simpl.
  - intros [].
  - destruct names; [exact Hn | exact IH].
Qed.

Lemma path_stem_no_separator : forall p,
  names_have_no_separator p -> ~ In 47%N (path_stem p).
Proof.
  intros p H Hin. apply (path_name_no_separator p H).
  unfold path_stem in Hin.
  destruct (_ && _) in Hin; [|exact Hin].
  rewrite <- (firstn_skipn (Z.to_nat (str_rfind 46 (path_name p)))).
  apply in_or_app. now left.
Qed.

Lemma default_name_is_one_name : forall p,
  names_have_no_separator p ->
  parse_root (default_name p) = []
  /\ parse_names (default_name p) = [default_name p].
Proof.
  intros p H.
  assert (Hsep : ~ In 47%N (default_name p)).
  { unfold default_name. intro Hin. apply in_app_or in Hin as [Hin | Hin].
    - now apply (path_stem_no_separator p H).
    - revert Hin. vm_compute. intuition discriminate. }
  assert (Hlen : (19 <= List.length (default_name p))%nat).
  { unfold default_name. rewrite length_app.
    change (List.length (str "_word_frequency.csv")) with 19%nat. lia. }
  split.
  - unfold parse_root. destruct (default_name p) as [|c r]; [reflexivity|].
    replace (str_startswith (str "/") (c :: r)) with false; [reflexivity|].
    change (str_startswith (str "/") (c :: r)) with ((47 =? c)%N && true).
    destruct (N.eqb_spec 47 c) as [<- | _]; [|reflexivity].
    exfalso. apply Hsep. now left.
  - unfold parse_names. rewrite (str_split_absent 47 (-1) _ Hsep). simpl.
    destruct (default_name p) as [|c [|c' r]];
      try (simpl in Hlen; lia).
    rewrite pystr_eqb_neq by discriminate. reflexivity.
Qed.

(** C10.  A destination that does not exist and whose suffix is not
    ".csv" in any letter case is taken as a directory: the result is the
    destination with the name "<input-stem>_word_frequency.csv" below it,
    which is never the destination itself. *)
Theorem build_output_path_missing_directory :
  forall U fs_exists fs_is_dir input_path output,
    names_have_no_separator input_path ->
    fs_exists output = false ->
    str_lower U (path_suffix output) <> str ".csv" ->
    build_output_path U fs_exists fs_is_dir input_path (Some output)
    = Some {| path_root := path_root output;
              path_names := path_names output
                            ++ [path_stem input_path
                                ++ str "_word_frequency.csv"] |}
    /\ build_output_path U fs_exists fs_is_dir input_path (Some output)
       <> Some output.
Proof.
  intros U fs_exists fs_is_dir input_path output Hwf Hmissing Hsuffix.
  destruct (default_name_is_one_name input_path Hwf) as [Hroot Hnames].
  assert (Hbuilt :
    build_output_path U fs_exists fs_is_dir input_path (Some output)
    = Some {| path_root := path_root output;
              path_names := path_names output ++ [default_name input_path] |}).
  { unfold build_output_path. rewrite Hmissing. cbn [andb].
    rewrite (pystr_eqb_neq _ _ Hsuffix).
    unfold path_join. rewrite Hroot, Hnames. reflexivity. }
  split.
  - exact Hbuilt.
  - rewrite Hbuilt. intro Heq. injection Heq as Heq.
    apply (f_equal (fun q => List.length (path_names q))) in Heq.
    simpl in Heq. rewrite length_app in Heq. simpl in Heq. lia.
Qed.

Lemma build_output_path_missing_directory_witness :
  let input_path := {| path_root := str "/";
                       path_names := [str "films"; str "m.srt"] |} in
  let output := {| path_root := []; path_names := [str "out.txt"] |} in
  names_have_no_separator input_path
  /\ str_lower ucd_excerpt (path_suffix output) <> str ".csv"
  /\ build_output_path ucd_excerpt (fun _ => false) (fun _ => false)
       input_path (Some output)
     = Some {| path_root := [];
               path_names := [str "out.txt"; str "m_word_frequency.csv"] |}.
Proof.
  assert (Hwf : names_have_no_separator
                  {| path_root := str "/";
                     path_names := [str "films"; str "m.srt"] |}).
  { repeat constructor; vm_compute; intuition discriminate. }
  assert (Hsuffix :
    str_lower ucd_excerpt
      (path_suffix {| path_root := []; path_names := [str "out.txt"] |})
    <> str ".csv") by (vm_compute; discriminate).
  split; [|split].
  - exact Hwf.
  - exact Hsuffix.
  - exact (proj1 (@build_output_path_missing_directory ucd_excerpt
             (fun _ => false) (fun _ => false) _ _ Hwf eq_refl Hsuffix)).
Defined.

(** ** The line-timed parser *)

Section TimeCodeFacts.

Variable U : UnicodeData.

Lemma re_char_spec : forall p k s,
  re_char p k s = true
  <-> exists c r, s = c :: r /\ p c = true /\ k r = true.
Proof.
  intros p k [|c r]; simpl.
  - split; [discriminate | intros (? & ? & ? & _); discriminate].
  - rewrite andb_true_iff. split.
    + intros [Hp Hk]. now exists c, r.
    + intros (c' & r' & Heq & Hp & Hk). now injection Heq as -> ->.
Qed.

Lemma re_lit_spec : forall c k s,
  re_lit c k s = true <-> exists r, s = c :: r /\ k r = true.
Proof.
  intros c k s. unfold re_lit. rewrite re_char_spec. split.
  - intros (c' & r & -> & Hc & Hk). apply N.eqb_eq in Hc. subst c'.
    now exists r.
  - intros (r & -> & Hk). exists c, r. now rewrite N.eqb_refl.
Qed.

Lemma re_spaces_spec : forall k s,
  re_spaces U k s = true
  <-> exists w r, s = w ++ r /\ is_blank U w /\ k r = true.
Proof.
  intros k s. split.
  - induction s as [|c s IH]; simpl; [discriminate|].
    rewrite andb_true_iff, orb_true_iff. intros [Hc [Hmore | Hk]].
    + destruct (IH Hmore) as (w & r & -> & [_ Hw] & Hk).
      exists (c :: w), r. repeat split; auto. discriminate.
    + exists [c], s. repeat split; auto. discriminate.
  - intros (w & r & -> & [Hne Hw] & Hk).
    induction Hw as [|c w Hc Hw IH]; [contradiction|].
    simpl. rewrite Hc. simpl. destruct w as [|c' w].
    + simpl. rewrite Hk. apply orb_true_r.
    + rewrite IH by discriminate. reflexivity.
Qed.

Lemma re_d2_spec : forall k s,
  re_d2 U k s = true
  <-> exists d1 d2 r, s = d1 :: d2 :: r
        /\ re_digit U d1 = true /\ re_digit U d2 = true /\ k r = true.
Proof.
  intros k s. unfold re_d2. rewrite re_char_spec. split.
  - intros (d1 & r1 & -> & H1 & H).
    apply re_char_spec in H as (d2 & r & -> & H2 & Hk).
    now exists d1, d2, r.
  - intros (d1 & d2 & r & -> & H1 & H2 & Hk).
    exists d1, (d2 :: r). repeat split; auto.
    apply re_char_spec. now exists d2, r.
Qed.

Lemma re_clock_spec : forall k s,
  re_clock U k s = true
  <-> exists c r, s = c ++ r /\ is_clock U c /\ k r = true.
Proof.
  intros k s. unfold re_clock, re_d3. split.
  - intro H.
    apply re_d2_spec in H as (h1 & h2 & r & -> & Hh1 & Hh2 & H).
    apply re_lit_spec in H as (r' & -> & H).
    apply re_d2_spec in H as (m1 & m2 & r & -> & Hm1 & Hm2 & H).
    apply re_lit_spec in H as (r' & -> & H).
    apply re_d2_spec in H as (s1 & s2 & r & -> & Hs1 & Hs2 & H).
    apply re_lit_spec in H as (r' & -> & H).
    apply re_char_spec in H as (f1 & r & -> & Hf1 & H).
    apply re_d2_spec in H as (f2 & f3 & r' & -> & Hf2 & Hf3 & Hk).
    exists [h1; h2; 58; m1; m2; 58; s1; s2; 44; f1; f2; f3]%N, r'.
    repeat split; auto.
    exists h1, h2, m1, m2, s1, s2, f1, f2, f3.
    split; [reflexivity|]. repeat constructor; assumption.
  - intros (c & r & -> & Hclock & Hk).
    destruct Hclock as (h1 & h2 & m1 & m2 & s1 & s2 & f1 & f2 & f3 & -> & Hd).
    repeat match goal with
      | H : Forall _ (_ :: _) |- _ => inversion H; subst; clear H
      end.
    unfold re_d2, re_lit, re_char. cbn [app].
    repeat match goal with
      | H : re_digit U _ = true |- _ => rewrite H; clear H
      end.
    rewrite !N.eqb_refl. cbn [andb].
    exact Hk.
Qed.

(** The pattern matches exactly the lines that begin with a timing range. *)
Lemma TIME_CODE_RE_match_spec : forall line,
  TIME_CODE_RE_match U line = true <-> starts_with_timing_range U line.
Proof.
  intro line. unfold TIME_CODE_RE_match, starts_with_timing_range. split.
  - intro H.
    apply re_clock_spec in H as (c1 & r & -> & Hc1 & H).
    apply re_spaces_spec in H as (w1 & r' & -> & Hw1 & H).
    apply re_lit_spec in H as (r & -> & H).
    apply re_lit_spec in H as (r' & -> & H).
    apply re_lit_spec in H as (r & -> & H).
    apply re_spaces_spec in H as (w2 & r' & -> & Hw2 & H).
    apply re_clock_spec in H as (c2 & r & -> & Hc2 & _).
    exists (c1 ++ w1 ++ str "-->" ++ w2 ++ c2), r. split.
    + rewrite <- !app_assoc. reflexivity.
    + now exists c1, w1, w2, c2.
  - intros (head & trailing & -> & c1 & w1 & w2 & c2 & -> & Hc1 & Hw1 & Hw2 & Hc2).
    rewrite <- !app_assoc.
    apply re_clock_spec. exists c1. eexists.
    split; [reflexivity|]. split; [assumption|].
    apply re_spaces_spec. exists w1. eexists.
    split; [reflexivity|]. split; [assumption|].
    change (str "-->") with [45; 45; 62]%N. cbn [app].
    apply re_lit_spec. eexists. split; [reflexivity|].
    apply re_lit_spec. eexists. split; [reflexivity|].
    apply re_lit_spec. eexists. split; [reflexivity|].
    apply re_spaces_spec. exists w2. eexists.
    split; [reflexivity|]. split; [assumption|].
    apply re_clock_spec. exists c2, trailing. auto.
Qed.


End TimeCodeFacts.



(** ** More on the line-timed parser *)

Section SrtFacts.

Variable U : UnicodeData.

Lemma str_lstrip_head : forall s c r,
  str_lstrip U s = c :: r -> Py_UNICODE_ISSPACE U c = false.
Proof.
  induction s as [|x s IH]; intros c r H; simpl in H.
  - discriminate.
  - destruct (Py_UNICODE_ISSPACE U x) eqn:E; [eauto|].
    now injection H as <- _.
Qed.

Lemma str_lstrip_suffix : forall s, exists p, s = p ++ str_lstrip U s.
Proof.
  induction s as [|x s [p IH]]; simpl.
  - now exists [].
  - destruct (Py_UNICODE_ISSPACE U x).
    + exists (x :: p). simpl. now f_equal.
    + now exists [].
Qed.

Lemma str_lstrip_fixed : forall s,
  (forall c r, s = c :: r -> Py_UNICODE_ISSPACE U c = false) ->
  str_lstrip U s = s.
Proof.
  intros [|x s] H; simpl; [reflexivity|].
  now rewrite (H x s eq_refl).
Qed.

Lemma str_rstrip_last : forall s r c,
  str_rstrip U s = r ++ [c] -> Py_UNICODE_ISSPACE U c = false.
Proof.
  intros s r c H. unfold str_rstrip in H.
  apply (f_equal (@rev N)) in H. rewrite rev_involutive, rev_unit in H.
  eapply str_lstrip_head; eauto.
Qed.

Lemma str_rstrip_prefix : forall s, exists q, s = str_rstrip U s ++ q.
Proof.
  intro s. unfold str_rstrip.
  destruct (str_lstrip_suffix (rev s)) as [p Hp].
  exists (rev p). rewrite <- rev_app_distr, <- Hp.
  now rewrite rev_involutive.
Qed.

Lemma str_rstrip_fixed : forall s,
  (forall r c, s = r ++ [c] -> Py_UNICODE_ISSPACE U c = false) ->
  str_rstrip U s = s.
Proof.
  intros s H. unfold str_rstrip. rewrite str_lstrip_fixed.
  - apply rev_involutive.
  - intros c r Hrev. apply (H (rev r) c).
    rewrite <- (rev_involutive s), Hrev. reflexivity.
Qed.

Lemma str_strip_trimmed : forall s, is_trimmed U (str_strip U s).
Proof.
  intro s. unfold str_strip. split.
  - intros c r H.
    destruct (str_rstrip_prefix (str_lstrip U s)) as [q Hq].
    rewrite H in Hq. eapply str_lstrip_head. exact Hq.
  - intros r c H. eapply str_rstrip_last; eauto.
Qed.

Lemma str_strip_fixed : forall s, is_trimmed U s -> str_strip U s = s.
Proof.
  intros s [Hhead Hlast]. unfold str_strip.
  rewrite (str_lstrip_fixed s Hhead). now apply str_rstrip_fixed.
Qed.

(** The test a stripped line passes to be kept. *)
Let keeps (line : pystr) : bool :=
  negb (is_empty line) && negb (str_isdigit U line)
  && negb (TIME_CODE_RE_match U line).

Lemma srt_step_keeps : forall lines raw_line,
  srt_step U lines raw_line
  = lines ++ filter keeps [str_strip U raw_line].
Proof.
  intros lines raw_line. unfold srt_step, keeps. simpl.
  destruct (is_empty _), (str_isdigit U _), (TIME_CODE_RE_match U _);
    simpl; now rewrite ?app_nil_r.
Qed.

Lemma fold_srt_step : forall handle lines,
  fold_left (srt_step U) handle lines
  = lines ++ filter keeps (List.map (str_strip U) handle).
Proof.
  induction handle as [|raw handle IH]; intro lines.
  - simpl. now rewrite app_nil_r.
  - cbn [fold_left List.map]. rewrite IH, srt_step_keeps.
    rewrite <- app_assoc. f_equal.
    change (str_strip U raw :: List.map (str_strip U) handle)
      with ([str_strip U raw] ++ List.map (str_strip U) handle).
    now rewrite filter_app.
Qed.

Lemma iter_srt_lines_filter : forall handle,
  iter_srt_lines U handle
  = filter keeps (List.map (str_strip U) handle).
Proof.
  intro handle. unfold iter_srt_lines. now rewrite fold_srt_step.
Qed.

Lemma keeps_spec : forall line, keeps line = true <-> srt_kept U line.
Proof.
  intro line. unfold keeps, srt_kept.
  rewrite !andb_true_iff, !negb_true_iff.
  rewrite <- TIME_CODE_RE_match_spec.
  destruct line as [|c r]; cbn [is_empty]; split.
  - intros [[H _] _]. discriminate.
  - intros [H _]. contradiction.
  - intros [[_ H1] H2]. repeat split; [discriminate | assumption|].
    rewrite H2. discriminate.
  - intros [_ [H1 H2]]. repeat split; [assumption|].
    destruct (TIME_CODE_RE_match U (c :: r)); [now elim H2 | reflexivity].
Qed.

End SrtFacts.

(** X1.  The lines the line-timed parser emits are exactly the stripped
    lines of the document that are not empty, not made of digits only and
    do not begin with a timing range. *)
Theorem iter_srt_lines_members : forall U handle line,
  In line (iter_srt_lines U handle)
  <-> exists raw_line,
        In raw_line handle /\ line = str_strip U raw_line
        /\ srt_kept U line.
Proof.
  intros U handle line.
  rewrite iter_srt_lines_filter, filter_In, in_map_iff, keeps_spec.
  split.
  - intros [(raw & <- & Hin) Hkept]. now exists raw.
  - intros (raw & Hin & -> & Hkept).
    split; [exists raw; split; [reflexivity | assumption] | assumption].
Qed.

(** X2.  The line-timed parser carries nothing from one line to the next:
    the lines of two documents put end to end are the lines of the first
    followed by the lines of the second. *)
Theorem iter_srt_lines_app : forall U handle1 handle2,
  iter_srt_lines U (handle1 ++ handle2)
  = iter_srt_lines U handle1 ++ iter_srt_lines U handle2.
Proof.
  intros U handle1 handle2.
  now rewrite !iter_srt_lines_filter, map_app, filter_app.
Qed.

(** X3.  Every line the line-timed parser emits begins and ends with a
    code point that is not whitespace, and parsing the emitted lines again
    gives them back unchanged. *)
Theorem iter_srt_lines_idempotent : forall U handle,
  Forall (is_trimmed U) (iter_srt_lines U handle)
  /\ iter_srt_lines U (iter_srt_lines U handle) = iter_srt_lines U handle.
Proof.
  intros U handle.
  assert (Htrim : Forall (is_trimmed U) (iter_srt_lines U handle)).
  { apply Forall_forall. intros line Hin.
    rewrite iter_srt_lines_filter in Hin.
    apply filter_In in Hin as [Hin _].
    apply in_map_iff in Hin as (raw & <- & _).
    apply str_strip_trimmed. }
  split; [exact Htrim|].
  rewrite (iter_srt_lines_filter U (iter_srt_lines U handle)).
  assert (Hkeep : Forall (fun line =>
            negb (is_empty line) && negb (str_isdigit U line)
            && negb (TIME_CODE_RE_match U line) = true)
            (iter_srt_lines U handle)).
  { rewrite iter_srt_lines_filter. apply Forall_forall.
    intros line Hin. now apply filter_In in Hin. }
  induction Htrim as [|line lines Hline Hlines IH]; [reflexivity|].
  inversion Hkeep as [|? ? Hk Hks]; subst. cbn [List.map filter].
  rewrite (str_strip_fixed U line Hline), Hk. f_equal. now apply IH.
Qed.

(** ** More on the field-delimited parser *)

Section AssFacts.

Variable U : UnicodeData.

Lemma startswith_empty : forall p, p <> [] -> str_startswith p [] = false.
Proof. intros [|c p] H; [contradiction | reflexivity]. Qed.

Lemma header_is_not_dialogue : forall line,
  str_startswith (str "Format:") line = true ->
  str_startswith (str "Dialogue:") line = false.
Proof.
  intros [|c r]; [discriminate|].
  change (str "Format:") with (70%N :: str "ormat:").
  change (str "Dialogue:") with (68%N :: str "ialogue:").
  cbn [str_startswith]. intro H. apply andb_true_iff in H as [H _].
  apply N.eqb_eq in H. now subst c.
Qed.

Lemma ass_step_lines : forall st raw_line,
  exists emitted,
    ass_lines (ass_step U st raw_line) = ass_lines st ++ emitted
    /\ (is_dialogue U raw_line = true -> exists text, emitted = [ass_clean text])
    /\ (is_dialogue U raw_line = false -> emitted = []).
Proof.
  intros st raw_line. unfold ass_step, is_dialogue.
  destruct (str_strip U raw_line) as [|c r] eqn:Hline; cbn [is_empty].
  - exists []. rewrite app_nil_r.
    change (str_startswith (str "Dialogue:") []) with false.
    split; [reflexivity | split; [intro; discriminate | reflexivity]].
  - destruct (str_startswith (str "Format:") (c :: r)) eqn:Hformat.
    + rewrite (header_is_not_dialogue _ Hformat).
      exists []. rewrite app_nil_r.
      split; [now destruct (list_index _ _)|].
      split; [intro; discriminate | reflexivity].
    + destruct (str_startswith (str "Dialogue:") (c :: r)).
      * eexists. split; [reflexivity|]. split; [|intro; discriminate].
        intros _. eexists. reflexivity.
      * exists []. rewrite app_nil_r.
        split; [reflexivity | split; [intro; discriminate | reflexivity]].
Qed.

Lemma ass_step_ignored : forall st raw_line,
  is_header U raw_line || is_dialogue U raw_line = false ->
  ass_step U st raw_line = st.
Proof.
  intros st raw_line H. apply orb_false_elim in H as [Hh Hd].
  unfold is_header, is_dialogue in *. unfold ass_step.
  rewrite Hh, Hd. now destruct (is_empty _).
Qed.

Lemma fold_ass_step_filter : forall handle st,
  fold_left (ass_step U)
    (filter (fun raw => is_header U raw || is_dialogue U raw) handle) st
  = fold_left (ass_step U) handle st.
Proof.
  induction handle as [|raw handle IH]; intro st; simpl.
  - reflexivity.
  - destruct (is_header U raw || is_dialogue U raw) eqn:E; simpl.
    + apply IH.
    + rewrite IH. now rewrite ass_step_ignored.
Qed.

Lemma fold_ass_step_length : forall handle st,
  List.length (ass_lines (fold_left (ass_step U) handle st))
  = (List.length (ass_lines st)
     + List.length (filter (is_dialogue U) handle))%nat.
Proof.
  induction handle as [|raw handle IH]; intro st; simpl.
  - lia.
  - rewrite IH.
    destruct (ass_step_lines st raw) as (emitted & -> & Hyes & Hno).
    rewrite length_app.
    destruct (is_dialogue U raw).
    + destruct (Hyes eq_refl) as [text ->]. simpl. lia.
    + rewrite (Hno eq_refl). simpl. lia.
Qed.

Lemma fold_ass_step_clean : forall (P : pystr -> Prop) handle st,
  (forall text, P (ass_clean text)) ->
  Forall P (ass_lines st) ->
  Forall P (ass_lines (fold_left (ass_step U) handle st)).
Proof.
  intros P handle. induction handle as [|raw handle IH]; intros st HP Hst.
  - exact Hst.
  - simpl. apply IH; [exact HP|].
    destruct (ass_step_lines st raw) as (emitted & -> & Hyes & Hno).
    apply Forall_app. split; [exact Hst|].
    destruct (is_dialogue U raw).
    + destruct (Hyes eq_refl) as [text ->]. constructor; auto.
    + rewrite (Hno eq_refl). constructor.
Qed.

End AssFacts.

(** X4.  The field-delimited parser emits one line for each dialogue
    directive of the document, and none for any other line. *)
Theorem iter_ass_lines_length : forall U handle,
  List.length (iter_ass_lines U handle)
  = List.length (filter (is_dialogue U) handle).
Proof.
  intros U handle. unfold iter_ass_lines.
  now rewrite fold_ass_step_length.
Qed.

(** X5.  Lines that are neither header nor dialogue directives are
    ignored: dropping them from the document changes nothing. *)
Theorem iter_ass_lines_ignores_other_lines : forall U handle,
  iter_ass_lines U
    (filter (fun raw => is_header U raw || is_dialogue U raw) handle)
  = iter_ass_lines U handle.
Proof.
  intros U handle. unfold iter_ass_lines.
  now rewrite fold_ass_step_filter.
Qed.

(** *** Markup removal *)

Lemma tag_closes_after_sub : forall r,
  tag_closes (override_sub false r) = true -> tag_closes r = true.
Proof.
  induction r as [|c r IH]; simpl; [discriminate|].
  destruct (N.eqb_spec c 123) as [-> | Hbrace]; cbn [andb].
  - destruct (tag_closes r) eqn:Hr; [reflexivity|].
    simpl. exact IH.
  - simpl. destruct (c =? 125)%N; [reflexivity|].
    destruct (c =? 10)%N; [discriminate | exact IH].
Qed.

Lemma override_sub_no_tag : forall r in_tag,
  (in_tag = true -> tag_closes r = true) ->
  has_override_tag (override_sub in_tag r) = false.
Proof.
  induction r as [|c r IH]; intros in_tag Hin; simpl.
  - now destruct in_tag.
  - destruct in_tag.
    + apply IH. intro Hc. specialize (Hin eq_refl). simpl in Hin.
      apply negb_true_iff in Hc. rewrite Hc in Hin.
      now destruct (c =? 10)%N.
    + destruct (N.eqb_spec c 123) as [-> | Hbrace]; cbn [andb].
      * destruct (tag_closes r) eqn:Hr.
        -- now apply IH.
        -- simpl. rewrite IH by discriminate.
           destruct (tag_closes (override_sub false r)) eqn:E;
             [|reflexivity].
           apply tag_closes_after_sub in E. congruence.
      * simpl. apply N.eqb_neq in Hbrace. rewrite Hbrace.
        apply IH. discriminate.
Qed.

Lemma override_sub_fixed : forall s,
  has_override_tag s = false -> override_sub false s = s.
Proof.
  induction s as [|c s IH]; simpl; intro H; [reflexivity|].
  apply orb_false_elim in H as [Hc Hs]. rewrite Hc.
  f_equal. now apply IH.
Qed.

(** X6.  After the override tags are removed no complete tag is left, and
    removing tags again changes nothing. *)
Theorem ASS_OVERRIDE_RE_sub_idempotent : forall text,
  has_override_tag (ASS_OVERRIDE_RE_sub text) = false
  /\ ASS_OVERRIDE_RE_sub (ASS_OVERRIDE_RE_sub text) = ASS_OVERRIDE_RE_sub text.
Proof.
  intro text.
  assert (H : has_override_tag (ASS_OVERRIDE_RE_sub text) = false)
    by (apply override_sub_no_tag; discriminate).
  split; [exact H | now apply override_sub_fixed].
Qed.

(** Induction on a string two code points at a time. *)
Lemma pystr_pair_ind : forall P : list N -> Prop,
  P [] -> (forall c, P [c]) ->
  (forall c1 c2 r, P r -> P (c2 :: r) -> P (c1 :: c2 :: r)) ->
  forall s : list N, P s.
Proof.
  intros P Hnil Hone Hstep.
  assert (H : forall s, P s /\ forall c, P (c :: s)).
  { induction s as [|c s [IH1 IH2]]; split; auto. }
  intro s. apply H.
Qed.

Section ReplaceFacts.

Variables o1 o2 : N.
Hypothesis o1_not_space : o1 <> 32%N.
Hypothesis o2_not_space : o2 <> 32%N.

Let replaced := str_replace2 o1 o2 (str " ").

Lemma replaced_step : forall c1 c2 r,
  replaced (c1 :: c2 :: r)
  = if (c1 =? o1)%N && (c2 =? o2)%N then 32%N :: replaced r
    else c1 :: replaced (c2 :: r).
Proof. reflexivity. Qed.

Lemma has_pair_step : forall a b c1 c2 r,
  has_pair a b (c1 :: c2 :: r)
  = ((c1 =? a)%N && (c2 =? b)%N) || has_pair a b (c2 :: r).
Proof. reflexivity. Qed.

Lemma has_pair_tail : forall a b c r,
  has_pair a b (c :: r) = false -> has_pair a b r = false.
Proof.
  intros a b c [|c' r] H; [reflexivity|].
  rewrite has_pair_step in H. now apply orb_false_elim in H.
Qed.

(** The pattern does not occur in the result. *)
Lemma replaced_has_no_pattern : forall s x,
  (x =? o1)%N && match s with c :: _ => (c =? o2)%N | [] => false end = false ->
  has_pair o1 o2 (x :: replaced s) = false.
Proof.
  induction s as [| c | c1 c2 r IHr IHc] using pystr_pair_ind; intros x Hx.
  - reflexivity.
  - change (replaced [c]) with [c]. rewrite has_pair_step, Hx. reflexivity.
  - rewrite replaced_step.
    destruct ((c1 =? o1)%N && (c2 =? o2)%N) eqn:Hmatch.
    + rewrite has_pair_step.
      replace (32 =? o2)%N with false
        by (symmetry; apply N.eqb_neq; congruence).
      rewrite andb_false_r. cbn [orb]. apply IHr.
      replace (32 =? o1)%N with false
        by (symmetry; apply N.eqb_neq; congruence).
      reflexivity.
    + rewrite has_pair_step, Hx. cbn [orb]. now apply IHc.
Qed.

(** A pair without a space that did not occur does not appear. *)
Lemma replaced_keeps_no_pair : forall a b,
  a <> 32%N -> b <> 32%N ->
  forall s x,
    has_pair a b (x :: s) = false ->
    has_pair a b (x :: replaced s) = false.
Proof.
  intros a b Ha Hb.
  assert (Ha' : (32 =? a)%N = false) by (apply N.eqb_neq; congruence).
  assert (Hb' : (32 =? b)%N = false) by (apply N.eqb_neq; congruence).
  induction s as [| c | c1 c2 r IHr IHc] using pystr_pair_ind; intros x Hx.
  - reflexivity.
  - exact Hx.
  - rewrite replaced_step. rewrite has_pair_step in Hx.
    apply orb_false_elim in Hx as [Hx1 Hx2].
    destruct ((c1 =? o1)%N && (c2 =? o2)%N) eqn:Hmatch.
    + rewrite has_pair_step, Hb', andb_false_r. cbn [orb].
      apply IHr. destruct r as [|c3 r]; [reflexivity|].
      rewrite has_pair_step, Ha'. cbn [andb orb].
      do 2 apply has_pair_tail in Hx2. exact Hx2.
    + rewrite has_pair_step, Hx1. cbn [orb]. now apply IHc.
Qed.

Hypothesis o1_plain : o1 <> 123%N /\ o1 <> 125%N /\ o1 <> 10%N.
Hypothesis o2_plain : o2 <> 123%N /\ o2 <> 125%N /\ o2 <> 10%N.

Lemma replaced_tag_closes : forall s,
  tag_closes (replaced s) = tag_closes s.
Proof.
  induction s as [| c | c1 c2 r IHr IHc] using pystr_pair_ind.
  - reflexivity.
  - reflexivity.
  - rewrite replaced_step.
    destruct ((c1 =? o1)%N && (c2 =? o2)%N) eqn:Hmatch.
    + apply andb_true_iff in Hmatch as [H1 H2].
      apply N.eqb_eq in H1, H2. subst c1 c2.
      destruct o1_plain as (_ & Hc1 & Hn1), o2_plain as (_ & Hc2 & Hn2).
      apply N.eqb_neq in Hc1, Hn1, Hc2, Hn2.
      cbn [tag_closes]. rewrite Hc1, Hn1, Hc2, Hn2.
      change (tag_closes (replaced r) = tag_closes r). exact IHr.
    + cbn [tag_closes]. fold (tag_closes (c2 :: r)). now rewrite IHc.
Qed.

Lemma replaced_keeps_no_tag : forall s,
  has_override_tag s = false -> has_override_tag (replaced s) = false.
Proof.
  induction s as [| c | c1 c2 r IHr IHc] using pystr_pair_ind; intro H.
  - reflexivity.
  - exact H.
  - rewrite replaced_step.
    cbn [has_override_tag] in H.
    apply orb_false_elim in H as [H1 H]. apply orb_false_elim in H as [H2 H].
    destruct ((c1 =? o1)%N && (c2 =? o2)%N) eqn:Hmatch.
    + cbn [has_override_tag]. cbn [N.eqb Pos.eqb andb orb]. now apply IHr.
    + cbn [has_override_tag]. fold (has_override_tag (replaced (c2 :: r))).
      rewrite replaced_tag_closes.
      rewrite H1, IHc; [reflexivity|].
      cbn [has_override_tag]. now rewrite H2, H.
Qed.

End ReplaceFacts.

Lemma str_replace2_no_pattern : forall o1 o2 s,
  o1 <> 32%N -> o2 <> 32%N ->
  has_pair o1 o2 (str_replace2 o1 o2 (str " ") s) = false.
Proof.
  intros o1 o2 s H1 H2.
  apply (has_pair_tail o1 o2 32).
  apply replaced_has_no_pattern; auto.
  replace (32 =? o1)%N with false
    by (symmetry; apply N.eqb_neq; congruence).
  reflexivity.
Qed.

Lemma str_replace2_keeps_no_pair : forall a b o1 o2 s,
  a <> 32%N -> b <> 32%N ->
  has_pair a b s = false ->
  has_pair a b (str_replace2 o1 o2 (str " ") s) = false.
Proof.
  intros a b o1 o2 s Ha Hb H.
  apply (has_pair_tail a b 32).
  apply replaced_keeps_no_pair; auto.
  destruct s as [|c s]; [reflexivity|].
  rewrite has_pair_step.
  replace (32 =? a)%N with false
    by (symmetry; apply N.eqb_neq; congruence).
  exact H.
Qed.

Lemma ass_clean_is_clean : forall text,
  has_override_tag (ass_clean text) = false
  /\ has_pair 92 78 (ass_clean text) = false
  /\ has_pair 92 110 (ass_clean text) = false
  /\ has_pair 92 104 (ass_clean text) = false.
Proof.
  intro text. unfold ass_clean.
  assert (Hplain : forall c : N,
            In c [92; 78; 110; 104]%N ->
            c <> 32%N /\ c <> 123%N /\ c <> 125%N /\ c <> 10%N).
  { intros c Hc. simpl in Hc.
    repeat (destruct Hc as [<- | Hc]; [repeat split; discriminate|]).
    contradiction. }
  assert (H92 := Hplain 92%N ltac:(simpl; auto)).
  assert (H78 := Hplain 78%N ltac:(simpl; auto)).
  assert (H110 := Hplain 110%N ltac:(simpl; auto)).
  assert (H104 := Hplain 104%N ltac:(simpl; auto)).
  repeat split.
  - repeat (apply replaced_keeps_no_tag; try tauto).
    apply override_sub_no_tag. discriminate.
  - do 2 (apply str_replace2_keeps_no_pair; try tauto).
    apply str_replace2_no_pattern; tauto.
  - apply str_replace2_keeps_no_pair; try tauto.
    apply str_replace2_no_pattern; tauto.
  - apply str_replace2_no_pattern; tauto.
Qed.

(** X7.  The texts the field-delimited parser emits hold no complete
    override tag and none of the escapes [\N], [\n] and [\h]. *)
Theorem iter_ass_lines_clean : forall U handle,
  Forall (fun text =>
            has_override_tag text = false
            /\ has_pair 92 78 text = false
            /\ has_pair 92 110 text = false
            /\ has_pair 92 104 text = false)
    (iter_ass_lines U handle).
Proof.
  intros U handle. unfold iter_ass_lines.
  apply fold_ass_step_clean; [exact ass_clean_is_clean | constructor].
Qed.

(** *** Field selection *)

Lemma partition_at_first : forall sep f rest,
  ~ In sep f -> partition_at sep (f ++ sep :: rest) = Some (f, rest).
Proof.
  induction f as [|c f IH]; intros rest H; simpl.
  - now rewrite N.eqb_refl.
  - destruct (N.eqb_spec c sep) as [-> | _].
    + exfalso. apply H. now left.
    + rewrite IH; [reflexivity|]. intro Hin. apply H. now right.
Qed.

Lemma split_upto_comma_join : forall fields text,
  Forall (fun f => ~ In 44%N f) fields ->
  split_upto 44 (List.length fields) (comma_join fields text)
  = fields ++ [text].
Proof.
  intros fields text H. induction H as [|f fields Hf Hfields IH].
  - reflexivity.
  - unfold comma_join in *. cbn [List.map List.concat List.length split_upto].
    rewrite <- !app_assoc. cbn [app].
    rewrite partition_at_first by assumption. now rewrite IH.
Qed.

Lemma str_split_of_nat : forall sep k s,
  str_split sep (Z.of_nat k) s = split_upto sep k s.
Proof.
  intros sep k s. unfold str_split.
  replace (Z.of_nat k <? 0)%Z with false by (symmetry; apply Z.ltb_ge; lia).
  now rewrite Nat2Z.id.
Qed.

Lemma dialogue_line_parts : forall payload,
  is_empty (str "Dialogue:" ++ payload) = false
  /\ str_startswith (str "Format:") (str "Dialogue:" ++ payload) = false
  /\ str_startswith (str "Dialogue:") (str "Dialogue:" ++ payload) = true
  /\ after_colon (str "Dialogue:" ++ payload) = payload.
Proof. intro payload. repeat split; reflexivity. Qed.

Lemma select_last_field :
  forall (fields : list pystr) (text : pystr) (index : option nat),
  (forall i, index = Some i -> (List.length fields <= i)%nat) ->
  match index with
  | Some i =>
      if (i <? List.length (fields ++ [text]))%nat
      then nth i (fields ++ [text]) []
      else last (fields ++ [text]) []
  | None => last (fields ++ [text]) []
  end = text.
Proof.
  intros fields text [i|] H; [|apply last_last].
  specialize (H i eq_refl). rewrite length_app. simpl.
  destruct (Nat.ltb_spec i (List.length fields + 1)); [|apply last_last].
  replace i with (List.length fields) by lia. apply nth_middle.
Qed.

(** X8.  When the text is the last piece of a dialogue payload (the
    recorded position of "Text" is the last column, or none is in range),
    the parser emits the whole last piece, commas included, with tags and
    escapes removed: the payload is split at the commas that end the
    earlier fields only. *)
Theorem ass_step_keeps_commas_in_text :
  forall U st raw_line payload fields text,
    str_strip U raw_line = str "Dialogue:" ++ payload ->
    str_lstrip U payload = comma_join fields text ->
    Forall (fun f => ~ In 44%N f) fields ->
    columns (field_count st) = S (List.length fields) ->
    (forall i, text_index st = Some i -> (List.length fields <= i)%nat) ->
    ass_lines (ass_step U st raw_line) = ass_lines st ++ [ass_clean text].
Proof.
  intros U st raw_line payload fields text Hline Hpayload Hfields Hcols Hindex.
  unfold ass_step. rewrite Hline.
  destruct (dialogue_line_parts payload) as (-> & -> & -> & ->).
  rewrite Hpayload. cbn [ass_lines]. do 2 f_equal. unfold ass_clean.
  do 4 f_equal.
  destruct (field_count st) as [[|n]|]; simpl in Hcols.
  - change 9%Z with (Z.of_nat 9). rewrite str_split_of_nat.
    replace 9%nat with (List.length fields) by lia.
    rewrite split_upto_comma_join by assumption. apply last_last.
  - replace (Z.of_nat (S n) - 1)%Z with (Z.of_nat n) by lia.
    rewrite str_split_of_nat.
    replace n with (List.length fields) by lia.
    rewrite split_upto_comma_join by assumption.
    now apply select_last_field.
  - change 9%Z with (Z.of_nat 9). rewrite str_split_of_nat.
    replace 9%nat with (List.length fields) by lia.
    rewrite split_upto_comma_join by assumption. apply last_last.
Qed.

Lemma ass_step_keeps_commas_in_text_witness :
  let st := {| ass_lines := []; text_index := Some 2%nat;
               field_count := Some 3%nat |} in
  Forall (fun f => ~ In 44%N f) [str "0"; str "Bob"]
  /\ ass_lines (ass_step ucd_excerpt st (str "Dialogue: 0,Bob,Hi, {\i1}there"))
     = [] ++ [ass_clean (str "Hi, {\i1}there")].
Proof.
  assert (Hfields : Forall (fun f => ~ In 44%N f) [str "0"; str "Bob"]).
  { repeat constructor; vm_compute; intuition discriminate. }
  split.
  - exact Hfields.
  - apply (@ass_step_keeps_commas_in_text ucd_excerpt
             {| ass_lines := []; text_index := Some 2%nat;
                field_count := Some 3%nat |}
             (str "Dialogue: 0,Bob,Hi, {\i1}there")
             (str " 0,Bob,Hi, {\i1}there")
             [str "0"; str "Bob"] (str "Hi, {\i1}there")).
    + reflexivity.
    + reflexivity.
    + exact Hfields.
    + reflexivity.
    + intros i Hi. injection Hi as <-. simpl. lia.
Defined.

(** ** More on the counter *)

Section TokenFacts.

Variable U : UnicodeData.

Lemma split_whitespace_from_words : forall (Q : N -> Prop) s cur,
  (forall c, In c s -> Q c) ->
  (forall c, In c cur -> Q c /\ Py_UNICODE_ISSPACE U c = false) ->
  Forall (fun w => w <> []
                   /\ Forall (fun c => Q c /\ Py_UNICODE_ISSPACE U c = false) w)
    (split_whitespace_from U cur s).
Proof.
  intros Q. induction s as [|c s IH]; intros cur Hs Hcur.
  - simpl. destruct cur as [|x cur]; [constructor|].
    constructor; [|constructor]. split.
    + simpl. intro H. now apply app_eq_nil in H as [_ H].
    + apply Forall_forall. intros d Hd. apply in_rev in Hd. auto.
  - simpl. destruct (Py_UNICODE_ISSPACE U c) eqn:Hc.
    + assert (Hrest : Forall
                (fun w => w <> []
                   /\ Forall (fun c => Q c /\ Py_UNICODE_ISSPACE U c = false) w)
                (split_whitespace_from U [] s)).
      { apply IH; [intros; apply Hs; now right | intros ? []]. }
      destruct cur as [|x cur]; [exact Hrest|].
      constructor; [|exact Hrest]. split.
      * simpl. intro H. now apply app_eq_nil in H as [_ H].
      * apply Forall_forall. intros d Hd. apply in_rev in Hd. auto.
    + apply IH; [intros; apply Hs; now right|].
      intros d [<- | Hd]; [|auto]. split; [apply Hs; now left | exact Hc].
Qed.

Lemma tokens_are_words : forall lines,
  Forall (is_word U) (tokens U lines).
Proof.
  induction lines as [|line lines IH]; [constructor|].
  unfold tokens. simpl. apply Forall_app. split; [|exact IH].
  unfold str_split_whitespace.
  eapply Forall_impl;
    [|apply (split_whitespace_from_words
               (fun c => kept_by_punct U c = true)
               (normalize_line U line) [])].
  - intros w [Hne Hw]. split; [exact Hne|].
    eapply Forall_impl; [|exact Hw]. intros c [Hkept Hspace].
    unfold kept_by_punct, re_space in *. rewrite Hspace in *.
    now rewrite orb_false_r in Hkept.
  - intros c Hc. unfold normalize_line in Hc.
    eapply PUNCT_RE_sub_kept; eauto.
  - intros c [].
Qed.

Lemma counter_incr_keys : forall word counts,
  List.map fst (counter_incr word counts)
  = if existsb (pystr_eqb word) (List.map fst counts)
    then List.map fst counts
    else List.map fst counts ++ [word].
Proof.
  induction counts as [|[w n] r IH]; [reflexivity|].
  cbn [counter_incr List.map fst existsb].
  destruct (pystr_eqb w word) eqn:E.
  - apply pystr_eqb_eq in E. subst w. now rewrite pystr_eqb_refl.
  - replace (pystr_eqb word w) with false.
    + cbn [List.map fst orb]. rewrite IH. now destruct (existsb _ _).
    + symmetry. apply pystr_eqb_neq. intros ->.
      now rewrite pystr_eqb_refl in E.
Qed.

Lemma counter_incr_NoDup : forall word counts,
  NoDup (List.map fst counts) ->
  NoDup (List.map fst (counter_incr word counts)).
Proof.
  intros word counts H. rewrite counter_incr_keys.
  destruct (existsb (pystr_eqb word) (List.map fst counts)) eqn:E;
    [exact H|].
  apply NoDup_app; [exact H | repeat constructor; intros [] |].
  intros w Hw [<- | []].
  assert (existsb (pystr_eqb word) (List.map fst counts) = true);
    [|congruence].
  apply existsb_exists. exists word.
  split; [exact Hw | apply pystr_eqb_refl].
Qed.

Lemma counter_incr_entries : forall (P : pystr -> Prop) word counts,
  P word ->
  Forall (fun item => P (fst item) /\ (1 <= snd item)%Z) counts ->
  Forall (fun item => P (fst item) /\ (1 <= snd item)%Z)
    (counter_incr word counts).
Proof.
  intros P word counts Hword. induction 1 as [|[w n] r [Hw Hn] Hr IH]; simpl.
  - constructor; [split; [exact Hword | simpl; lia] | constructor].
  - simpl in Hw, Hn.
    destruct (pystr_eqb w word); constructor; auto; simpl; split; auto; lia.
Qed.

Lemma add_words_table : forall (P : pystr -> Prop) words counts,
  Forall P words ->
  NoDup (List.map fst counts)
  /\ Forall (fun item => P (fst item) /\ (1 <= snd item)%Z) counts ->
  NoDup (List.map fst (fold_left add_word words counts))
  /\ Forall (fun item => P (fst item) /\ (1 <= snd item)%Z)
       (fold_left add_word words counts).
Proof.
  intros P words counts Hwords. revert counts.
  induction Hwords as [|w words Hw Hwords IH]; intros counts [Hnd Hall].
  - now split.
  - simpl. apply IH. unfold add_word. split.
    + now apply counter_incr_NoDup.
    + now apply counter_incr_entries.
Qed.

Lemma count_words_table : forall lines,
  NoDup (List.map fst (count_words U lines))
  /\ Forall (fun item => is_word U (fst item) /\ (1 <= snd item)%Z)
       (count_words U lines).
Proof.
  intro lines. unfold count_words. rewrite count_lines_as_tokens.
  apply add_words_table.
  - apply tokens_are_words.
  - split; constructor.
Qed.

Lemma count_words_lookup : forall lines word,
  counter_lookup (count_words U lines) word
  = bumped (count_occ (list_eq_dec N.eq_dec) (tokens U lines) word) None.
Proof.
  intros lines word. unfold count_words.
  now rewrite count_lines_as_tokens, counter_lookup_add_words.
Qed.

End TokenFacts.

(** X9.  The count of a word is the number of times it occurs among the
    tokens of the normalized lines; a word that does not occur has no entry. *)
Theorem count_words_counts_occurrences : forall U lines word,
  counter_lookup (count_words U lines) word
  = match count_occ (list_eq_dec N.eq_dec) (tokens U lines) word with
    | O => None
    | S k => Some (Z.of_nat (S k))
    end.
Proof.
  intros U lines word. rewrite count_words_lookup. unfold bumped.
  destruct (count_occ _ _ _); [reflexivity|]. unfold held. f_equal.
Qed.

(** X10.  In the table no word has two entries, every word is a non-empty
    run of word code points without whitespace, and every count is at least
    one. *)
Theorem count_words_well_formed : forall U lines,
  NoDup (List.map fst (count_words U lines))
  /\ Forall (fun item => is_word U (fst item) /\ (1 <= snd item)%Z)
       (count_words U lines).
Proof.
  intros U lines. apply count_words_table.
Qed.

(** X11.  Counts add up across documents: the count of a word over two
    sequences of lines put end to end is the sum of its counts over each,
    a missing entry counting for zero. *)
Theorem count_words_app : forall U lines1 lines2 word,
  held (counter_lookup (count_words U (lines1 ++ lines2)) word)
  = (held (counter_lookup (count_words U lines1) word)
     + held (counter_lookup (count_words U lines2) word))%Z.
Proof.
  intros U lines1 lines2 word. rewrite !count_words_lookup.
  unfold tokens. rewrite flat_map_app, count_occ_app.
  assert (Hheld : forall k, held (bumped k None) = Z.of_nat k)
    by (intros [|k]; reflexivity).
  rewrite !Hheld. apply Nat2Z.inj_add.
Qed.

(** ** More on the paths *)

Lemma rfind_from_absent : forall c s i,
  ~ In c s -> rfind_from c i s = (-1)%Z.
Proof.
  induction s as [|x s IH]; intros i H; simpl; [reflexivity|].
  rewrite IH by (intro Hin; apply H; now right). cbn [Z.leb Z.compare].
  destruct (N.eqb_spec x c) as [-> | _]; [|reflexivity].
  exfalso. apply H. now left.
Qed.

Lemma rfind_from_last : forall c a b i,
  (0 <= i)%Z -> ~ In c b ->
  rfind_from c i (a ++ c :: b) = (i + Z.of_nat (List.length a))%Z.
Proof.
  induction a as [|x a IH]; intros b i Hi Hb.
  - simpl. rewrite rfind_from_absent by assumption.
    cbn [Z.leb Z.compare]. rewrite N.eqb_refl. lia.
  - cbn [app rfind_from List.length]. rewrite IH by (assumption || lia).
    destruct (Z.leb_spec 0 (i + 1 + Z.of_nat (List.length a))); lia.
Qed.

Lemma skipn_length_app : forall (a b : pystr),
  skipn (List.length a) (a ++ b) = b.
Proof. induction a as [|x a IH]; intro b; simpl; auto. Qed.

Lemma firstn_length_app : forall (a b : pystr),
  firstn (List.length a) (a ++ b) = a.
Proof. induction a as [|x a IH]; intro b; simpl; [|rewrite IH]; auto. Qed.

(** The suffix of a name starts at its last dot, when the dot is neither
    the first nor the last code point of the name. *)
Lemma path_suffix_of_name : forall p a b,
  path_name p = a ++ 46%N :: b -> a <> [] -> b <> [] -> ~ In 46%N b ->
  path_suffix p = 46%N :: b /\ path_stem p = a.
Proof.
  intros p a b Hname Ha Hb Hdot. unfold path_suffix, path_stem.
  rewrite Hname. unfold str_rfind.
  rewrite rfind_from_last by (assumption || lia).
  rewrite length_app. cbn [List.length Z.add].
  assert (Hcond : (0 <? Z.of_nat (List.length a))%Z
                  && (Z.of_nat (List.length a)
                      <? Z.of_nat (List.length a + S (List.length b)) - 1)%Z
                  = true).
  { destruct a; [contradiction|]. destruct b; [contradiction|].
    apply andb_true_iff. split; apply Z.ltb_lt; simpl List.length; lia. }
  rewrite Hcond, Nat2Z.id.
  split; [apply skipn_length_app | apply firstn_length_app].
Qed.

Lemma path_name_last : forall root names name,
  path_name {| path_root := root; path_names := names ++ [name] |} = name.
Proof. intros. unfold path_name. simpl. apply last_last. Qed.

Lemma default_name_suffix : forall U root names input_path,
  str_lower U
    (path_suffix {| path_root := root;
                    path_names := names ++ [default_name input_path] |})
  = str ".csv".
Proof.
  intros U root names input_path.
  destruct (path_suffix_of_name
              {| path_root := root;
                 path_names := names ++ [default_name input_path] |}
              (path_stem input_path ++ str "_word_frequency") (str "csv"))
    as [-> _].
  - rewrite path_name_last. unfold default_name.
    rewrite <- app_assoc. reflexivity.
  - intro H. apply app_eq_nil in H as [_ H]. discriminate.
  - discriminate.
  - vm_compute. intuition discriminate.
  - reflexivity.
Qed.

Lemma default_name_valid : forall input_path,
  names_have_no_separator input_path ->
  is_empty (default_name input_path)
  || existsb (N.eqb 47) (default_name input_path)
  || pystr_eqb (default_name input_path) (str ".") = false.
Proof.
  intros input_path Hwf.
  destruct (default_name_is_one_name input_path Hwf) as [_ Hnames].
  unfold parse_names in Hnames.
  assert (Hsep : existsb (N.eqb 47) (default_name input_path) = false).
  { destruct (existsb _ _) eqn:E; [|reflexivity].
    apply existsb_exists in E as (c & Hc & Heq).
    apply N.eqb_eq in Heq. subst c. exfalso.
    revert Hc. unfold default_name. intro Hc.
    apply in_app_or in Hc as [Hc | Hc].
    - now apply (path_stem_no_separator input_path Hwf).
    - revert Hc. vm_compute. intuition discriminate. }
  rewrite Hsep.
  assert (Hlen : (19 <= List.length (default_name input_path))%nat).
  { unfold default_name. rewrite length_app.
    change (List.length (str "_word_frequency.csv")) with 19%nat. lia. }
  destruct (default_name input_path) as [|c [|c' r]];
    try (simpl in Hlen; lia).
  cbn [is_empty orb]. apply pystr_eqb_neq. discriminate.
Qed.

(** X12.  Whatever the destination, the path [build_output_path] returns
    has the suffix ".csv" once lowercased. *)
Theorem build_output_path_csv_suffix :
  forall U fs_exists fs_is_dir input_path output output_path,
    names_have_no_separator input_path ->
    build_output_path U fs_exists fs_is_dir input_path output
    = Some output_path ->
    str_lower U (path_suffix output_path) = str ".csv".
Proof.
  intros U fs_exists fs_is_dir input_path output output_path Hwf Hbuilt.
  destruct (default_name_is_one_name input_path Hwf) as [Hroot Hnames].
  assert (Hjoin : forall dir,
            str_lower U (path_suffix (path_join dir (default_name input_path)))
            = str ".csv").
  { intro dir. unfold path_join. rewrite Hroot, Hnames. cbn [is_empty].
    apply default_name_suffix. }
  unfold build_output_path in Hbuilt. destruct output as [output|].
  - destruct (fs_exists output && fs_is_dir output).
    + injection Hbuilt as <-. apply Hjoin.
    + destruct (pystr_eqb _ _) eqn:E.
      * injection Hbuilt as <-. now apply pystr_eqb_eq.
      * injection Hbuilt as <-. apply Hjoin.
  - unfold path_with_name in Hbuilt.
    rewrite (default_name_valid input_path Hwf) in Hbuilt.
    destruct (is_empty (path_name input_path)); [discriminate|].
    injection Hbuilt as <-. apply default_name_suffix.
Qed.

Lemma build_output_path_csv_suffix_witness :
  let input_path := {| path_root := str "/";
                       path_names := [str "films"; str "m.srt"] |} in
  names_have_no_separator input_path
  /\ build_output_path ucd_excerpt (fun _ => false) (fun _ => false)
       input_path None
     = Some {| path_root := str "/";
               path_names := [str "films"; str "m_word_frequency.csv"] |}
  /\ str_lower ucd_excerpt
       (path_suffix {| path_root := str "/";
                       path_names := [str "films";
                                      str "m_word_frequency.csv"] |})
     = str ".csv".
Proof.
  assert (Hwf : names_have_no_separator
                  {| path_root := str "/";
                     path_names := [str "films"; str "m.srt"] |}).
  { repeat constructor; vm_compute; intuition discriminate. }
  split; [exact Hwf | split; [reflexivity|]].
  exact (@build_output_path_csv_suffix ucd_excerpt
           (fun _ => false) (fun _ => false) _ None _ Hwf eq_refl).
Defined.

(** X13.  With the destination omitted, the output goes beside the input:
    same root and same directories, under the name
    "<input-stem>_word_frequency.csv". *)
Theorem build_output_path_beside_input :
  forall U fs_exists fs_is_dir root parent name,
    name <> [] ->
    names_have_no_separator
      {| path_root := root; path_names := parent ++ [name] |} ->
    build_output_path U fs_exists fs_is_dir
      {| path_root := root; path_names := parent ++ [name] |} None
    = Some {| path_root := root;
              path_names :=
                parent ++ [path_stem {| path_root := root;
                                        path_names := parent ++ [name] |}
                           ++ str "_word_frequency.csv"] |}.
Proof.
  intros U fs_exists fs_is_dir root parent name Hname Hwf.
  unfold build_output_path, path_with_name.
  rewrite (default_name_valid _ Hwf), path_name_last.
  destruct name; [contradiction|]. cbn [is_empty path_root path_names].
  now rewrite removelast_last.
Qed.

Lemma build_output_path_beside_input_witness :
  str "m.srt" <> []
  /\ names_have_no_separator
       {| path_root := str "/"; path_names := [str "films"] ++ [str "m.srt"] |}
  /\ build_output_path ucd_excerpt (fun _ => true) (fun _ => false)
       {| path_root := str "/"; path_names := [str "films"] ++ [str "m.srt"] |}
       None
     = Some {| path_root := str "/";
               path_names :=
                 [str "films"]
                 ++ [path_stem {| path_root := str "/";
                                  path_names := [str "films"] ++ [str "m.srt"] |}
                     ++ str "_word_frequency.csv"] |}.
Proof.
  assert (Hname : str "m.srt" <> []) by discriminate.
  assert (Hwf : names_have_no_separator
                  {| path_root := str "/";
                     path_names := [str "films"] ++ [str "m.srt"] |}).
  { repeat constructor; vm_compute; intuition discriminate. }
  split; [exact Hname | split; [exact Hwf|]].
  exact (@build_output_path_beside_input ucd_excerpt
           (fun _ => true) (fun _ => false) (str "/") [str "films"]
           (str "m.srt") Hname Hwf).
Defined.

(** X14.  A destination that exists and is a directory is used as a
    directory even when its own name ends in ".csv". *)
Theorem build_output_path_existing_directory :
  forall U fs_exists fs_is_dir input_path output,
    names_have_no_separator input_path ->
    fs_exists output = true -> fs_is_dir output = true ->
    build_output_path U fs_exists fs_is_dir input_path (Some output)
    = Some {| path_root := path_root output;
              path_names := path_names output
                            ++ [path_stem input_path
                                ++ str "_word_frequency.csv"] |}.
Proof.
  intros U fs_exists fs_is_dir input_path output Hwf Hexists Hdir.
  destruct (default_name_is_one_name input_path Hwf) as [Hroot Hnames].
  unfold build_output_path. rewrite Hexists, Hdir. cbn [andb].
  unfold path_join. rewrite Hroot, Hnames. reflexivity.
Qed.

Lemma build_output_path_existing_directory_witness :
  let input_path := {| path_root := str "/";
                       path_names := [str "films"; str "m.srt"] |} in
  let output := {| path_root := []; path_names := [str "out.csv"] |} in
  names_have_no_separator input_path
  /\ build_output_path ucd_excerpt (fun _ => true) (fun _ => true)
       input_path (Some output)
     = Some {| path_root := [];
               path_names := [str "out.csv"]
                             ++ [path_stem input_path
                                 ++ str "_word_frequency.csv"] |}.
Proof.
  assert (Hwf : names_have_no_separator
                  {| path_root := str "/";
                     path_names := [str "films"; str "m.srt"] |}).
  { repeat constructor; vm_compute; intuition discriminate. }
  split; [exact Hwf|].
  exact (@build_output_path_existing_directory ucd_excerpt
           (fun _ => true) (fun _ => true) _
           {| path_root := []; path_names := [str "out.csv"] |}
           Hwf eq_refl eq_refl).
Defined.

(** ** The dispatch and the whole run *)

(** X15.  A file whose name ends in ".ass", in any letter case, goes to the
    field-delimited parser; only the last suffix of the name counts. *)
Theorem iter_subtitle_lines_ass_any_case :
  forall U sub_path handle base a s1 s2,
    path_name sub_path = base ++ [46; a; s1; s2]%N ->
    base <> [] ->
    a = 65%N \/ a = 97%N ->
    s1 = 83%N \/ s1 = 115%N ->
    s2 = 83%N \/ s2 = 115%N ->
    iter_subtitle_lines U sub_path handle = iter_ass_lines U handle.
Proof.
  intros U sub_path handle base a s1 s2 Hname Hbase Ha Hs1 Hs2.
  unfold iter_subtitle_lines.
  destruct (path_suffix_of_name sub_path base [a; s1; s2]) as [-> _];
    try assumption; try discriminate.
  - destruct Ha as [-> | ->], Hs1 as [-> | ->], Hs2 as [-> | ->];
      simpl; intuition discriminate.
  - destruct Ha as [-> | ->], Hs1 as [-> | ->], Hs2 as [-> | ->];
      reflexivity.
Qed.

Lemma iter_subtitle_lines_ass_any_case_witness :
  path_name {| path_root := []; path_names := [str "film.srt.ASS"] |}
  = str "film.srt" ++ [46; 65; 83; 83]%N
  /\ iter_subtitle_lines ucd_excerpt
       {| path_root := []; path_names := [str "film.srt.ASS"] |}
       [str "Dialogue: 0,0,0,s,n,0,0,0,e,Hi"]
     = iter_ass_lines ucd_excerpt [str "Dialogue: 0,0,0,s,n,0,0,0,e,Hi"].
Proof.
  split; [reflexivity|].
  apply (@iter_subtitle_lines_ass_any_case ucd_excerpt
           {| path_root := []; path_names := [str "film.srt.ASS"] |}
           [str "Dialogue: 0,0,0,s,n,0,0,0,e,Hi"]
           (str "film.srt") 65%N 83%N 83%N);
    solve [reflexivity | discriminate | auto].
Defined.

(** X16.  A file whose name holds no dot, or only a leading dot (a file
    named ".ass"), has no suffix and goes to the line-timed parser. *)
Theorem iter_subtitle_lines_without_suffix :
  forall U sub_path handle,
    ~ In 46%N (path_name sub_path)
    \/ (exists b, path_name sub_path = 46%N :: b /\ ~ In 46%N b) ->
    iter_subtitle_lines U sub_path handle = iter_srt_lines U handle.
Proof.
  intros U sub_path handle Hname. unfold iter_subtitle_lines.
  assert (Hsuffix : path_suffix sub_path = []).
  { unfold path_suffix, str_rfind. destruct Hname as [Hno | (b & -> & Hb)].
    - now rewrite rfind_from_absent.
    - cbn [rfind_from]. rewrite rfind_from_absent by assumption.
      reflexivity. }
  rewrite Hsuffix. reflexivity.
Qed.

Lemma iter_subtitle_lines_without_suffix_witness :
  (~ In 46%N (path_name {| path_root := []; path_names := [str ".ass"] |})
   \/ (exists b,
         path_name {| path_root := []; path_names := [str ".ass"] |}
         = 46%N :: b /\ ~ In 46%N b))
  /\ iter_subtitle_lines ucd_excerpt
       {| path_root := []; path_names := [str ".ass"] |} [str "Dialogue: Hi"]
     = iter_srt_lines ucd_excerpt [str "Dialogue: Hi"].
Proof.
  assert (H : ~ In 46%N (path_name {| path_root := [];
                                      path_names := [str ".ass"] |})
              \/ (exists b,
                    path_name {| path_root := []; path_names := [str ".ass"] |}
                    = 46%N :: b /\ ~ In 46%N b)).
  { right. exists (str "ass"). split; [reflexivity|].
    vm_compute. intuition discriminate. }
  split; [exact H|].
  exact (@iter_subtitle_lines_without_suffix ucd_excerpt
           {| path_root := []; path_names := [str ".ass"] |}
           [str "Dialogue: Hi"] H).
Defined.



(** ** The schema of the field-delimited parser *)

Section SchemaFacts.

Variable U : UnicodeData.

Lemma ass_step_shift : forall extra st raw_line,
  ass_step U (with_lines (extra ++ ass_lines st) st) raw_line
  = with_lines (extra ++ ass_lines (ass_step U st raw_line))
      (ass_step U st raw_line).
Proof.
  intros extra st raw_line. unfold ass_step, with_lines.
  destruct (is_empty _); [reflexivity|].
  destruct (str_startswith (str "Format:") _).
  - now destruct (list_index _ _).
  - destruct (str_startswith (str "Dialogue:") _); [|reflexivity].
    cbn [ass_lines text_index field_count]. now rewrite app_assoc.
Qed.

Lemma fold_ass_step_shift : forall handle extra st,
  fold_left (ass_step U) handle (with_lines (extra ++ ass_lines st) st)
  = with_lines (extra ++ ass_lines (fold_left (ass_step U) handle st))
      (fold_left (ass_step U) handle st).
Proof.
  induction handle as [|raw handle IH]; intros extra st.
  - reflexivity.
  - cbn [fold_left]. rewrite ass_step_shift. apply IH.
Qed.

Lemma list_index_In : forall x l,
  In x l -> exists i, list_index x l = Some i.
Proof.
  induction l as [|y l IH]; intros H; [contradiction|]. simpl.
  destruct (pystr_eqb y x) eqn:E; [now exists O|].
  destruct H as [-> | H]; [now rewrite pystr_eqb_refl in E|].
  destruct (IH H) as [i ->]. now exists (S i).
Qed.

Lemma ass_step_header : forall raw_line,
  is_header U raw_line = true ->
  In (str "Text") (header_fields U raw_line) ->
  exists i n,
    forall st', ass_step U st' raw_line
                = {| ass_lines := ass_lines st'; text_index := Some i;
                     field_count := Some n |}.
Proof.
  intros raw_line Hheader Htext.
  unfold is_header in Hheader. unfold header_fields in Htext.
  destruct (list_index_In _ _ Htext) as [i Hi].
  exists i, (List.length (header_fields U raw_line)).
  unfold header_fields. intro st'. unfold ass_step.
  rewrite Hheader, Hi.
  destruct (str_strip U raw_line); [discriminate Hheader | reflexivity].
Qed.

Lemma fold_ass_step_extends : forall handle st,
  exists emitted,
    ass_lines (fold_left (ass_step U) handle st) = ass_lines st ++ emitted.
Proof.
  induction handle as [|raw handle IH]; intro st.
  - exists []. now rewrite app_nil_r.
  - cbn [fold_left]. destruct (IH (ass_step U st raw)) as [later ->].
    destruct (ass_step_lines U st raw) as (now_ & -> & _).
    exists (now_ ++ later). now rewrite app_assoc.
Qed.

End SchemaFacts.

(** X18.  What the field-delimited parser has emitted is not changed by
    the lines that follow, headers included: the lines of a longer document
    begin with the lines of the shorter one. *)
Theorem iter_ass_lines_extends : forall U handle more,
  exists emitted,
    iter_ass_lines U (handle ++ more) = iter_ass_lines U handle ++ emitted.
Proof.
  intros U handle more. unfold iter_ass_lines. rewrite fold_left_app.
  apply fold_ass_step_extends.
Qed.

(** X19.  A header that declares a field named "Text" replaces the schema
    entirely: the dialogues after it are read as if the document began
    with that header. *)
Theorem header_with_text_resets_schema : forall U before raw_line after,
  is_header U raw_line = true ->
  In (str "Text") (header_fields U raw_line) ->
  iter_ass_lines U (before ++ raw_line :: after)
  = iter_ass_lines U before ++ iter_ass_lines U (raw_line :: after).
Proof.
  intros U before raw_line after Hheader Htext.
  unfold iter_ass_lines. rewrite fold_left_app. cbn [fold_left].
  set (init := {| ass_lines := []; text_index := None; field_count := None |}).
  set (st := fold_left (ass_step U) before init).
  destruct (ass_step_header U raw_line Hheader Htext) as (i & n & Hstep).
  rewrite (Hstep st), (Hstep init).
  set (fresh := {| ass_lines := ass_lines init; text_index := Some i;
                   field_count := Some n |}).
  change {| ass_lines := ass_lines st; text_index := Some i;
            field_count := Some n |}
    with (with_lines (ass_lines st) fresh).
  rewrite <- (app_nil_r (ass_lines st)) at 1.
  change (@nil pystr) with (ass_lines fresh) at 1.
  now rewrite fold_ass_step_shift.
Qed.

Lemma header_with_text_resets_schema_witness :
  is_header ucd_excerpt (str "Format: Text, Name") = true
  /\ In (str "Text") (header_fields ucd_excerpt (str "Format: Text, Name"))
  /\ iter_ass_lines ucd_excerpt
       ([str "Format: Name, Text"; str "Dialogue: a,b"]
        ++ str "Format: Text, Name" :: [str "Dialogue: c,d"])
     = iter_ass_lines ucd_excerpt
         [str "Format: Name, Text"; str "Dialogue: a,b"]
       ++ iter_ass_lines ucd_excerpt
            (str "Format: Text, Name" :: [str "Dialogue: c,d"]).
Proof.
  assert (Htext : In (str "Text")
                    (header_fields ucd_excerpt (str "Format: Text, Name")))
    by (left; reflexivity).
  split; [reflexivity | split; [exact Htext|]].
  exact (@header_with_text_resets_schema ucd_excerpt
           [str "Format: Name, Text"; str "Dialogue: a,b"]
           (str "Format: Text, Name") [str "Dialogue: c,d"]
           eq_refl Htext).
Defined.

(** ** More on the normalizer *)

(** X20.  Only word code points (alphanumeric or the underscore) and
    whitespace are left in a normalized line. *)
Theorem normalize_line_word_or_space : forall U line,
  Forall (fun c => re_word U c = true \/ re_space U c = true)
    (normalize_line U line).
Proof.
  intros U line. apply Forall_forall. intros c Hc.
  unfold normalize_line in Hc. apply PUNCT_RE_sub_kept in Hc.
  now apply orb_true_iff in Hc.
Qed.

(** X21.  A mark of [BIDI_MARKS] inside a line is deleted before anything
    else: the line normalizes as it does without the mark, so the text on
    both sides of the mark is joined. *)
Theorem normalize_line_drops_bidi_mark : forall U a mark b,
  is_bidi_mark mark = true ->
  normalize_line U (a ++ mark :: b) = normalize_line U (a ++ b).
Proof.
  intros U a mark b Hmark. unfold normalize_line, translate_BIDI_MARKS.
  rewrite !filter_app. cbn [filter]. now rewrite Hmark.
Qed.

Lemma normalize_line_drops_bidi_mark_witness :
  is_bidi_mark 8207%N = true
  /\ normalize_line ucd_excerpt (str "ab" ++ 8207%N :: str "cd")
     = normalize_line ucd_excerpt (str "ab" ++ str "cd").
Proof.
  split; [reflexivity|].
  exact (@normalize_line_drops_bidi_mark ucd_excerpt
           (str "ab") 8207%N (str "cd") eq_refl).
Defined.

Lemma below_128_cases : forall c,
  (c < 128)%N -> In c (List.map N.of_nat (seq 0 128)).
Proof.
  intros c Hc. apply in_map_iff. exists (N.to_nat c).
  split; [apply N2Nat.id | apply in_seq; lia].
Qed.

Lemma ascii_normalized_spec : forall U c,
  (c < 128)%N ->
  tolower_full U c = [ascii_tolower c]
  /\ (c =? capital_sigma)%N = false
  /\ is_bidi_mark c = false
  /\ (if re_word U (ascii_tolower c) || re_space U (ascii_tolower c)
      then ascii_tolower c else 32%N) = ascii_normalized c.
Proof.
  intros U c Hc. apply below_128_cases in Hc. revert c Hc.
  apply Forall_forall.
  repeat (constructor; [repeat split; reflexivity|]). constructor.
Qed.

(** X22.  On a line of code points below U+0080 normalization works one
    code point at a time, whatever the rest of the Unicode database holds:
    letters are lowered, digits, underscores and whitespace stay, every
    other code point becomes one space; the length does not change. *)
Theorem normalize_line_ascii : forall U line,
  Forall (fun c => (c < 128)%N) line ->
  normalize_line U line = List.map ascii_normalized line.
Proof.
  intros U line Hline. unfold normalize_line, str_lower.
  generalize (@nil N) as left.
  induction Hline as [|c line Hc Hline IH]; intro left; [reflexivity|].
  destruct (ascii_normalized_spec U c Hc) as (Hlow & Hsigma & Hmark & Hnorm).
  unfold translate_BIDI_MARKS in *. cbn [filter]. rewrite Hmark.
  cbn [negb do_lower]. rewrite Hsigma, Hlow.
  cbn [app PUNCT_RE_sub List.map]. rewrite Hnorm. f_equal.
  apply IH.
Qed.

Lemma normalize_line_ascii_witness :
  Forall (fun c => (c < 128)%N) (str "Don't go!")
  /\ normalize_line ucd_excerpt (str "Don't go!")
     = List.map ascii_normalized (str "Don't go!").
Proof.
  assert (H : Forall (fun c => (c < 128)%N) (str "Don't go!"))
    by (repeat constructor).
  split; [exact H|].
  exact (@normalize_line_ascii ucd_excerpt (str "Don't go!") H).
Defined.

(** ** More on the export order *)

(** X23.  The first exported row holds a count that no row of the table
    exceeds. *)
Theorem sorted_items_first_is_largest : forall counts first rest,
  sorted_items counts = first :: rest ->
  Forall (fun item => (snd item <= snd first)%Z) counts.
Proof.
  intros counts first rest Hsorted.
  assert (Hs : StronglySorted row_order (sorted_items counts))
    by (apply sorted_from_sorted; constructor).
  assert (Hp : Permutation (sorted_items counts) counts).
  { unfold sorted_items, sorted. symmetry.
    rewrite <- sorted_from_permutation. now rewrite app_nil_r. }
  eapply Permutation_Forall; [exact Hp|].
  rewrite Hsorted in *. inversion Hs as [|? ? _ Hfirst]; subst.
  constructor; [lia|].
  eapply Forall_impl; [|exact Hfirst].
  intros item [Hlt | [Heq _]]; lia.
Qed.

Lemma sorted_items_first_is_largest_witness :
  sorted_items [(str "a", 1%Z); (str "b", 3%Z); (str "c", 2%Z)]
  = (str "b", 3%Z) :: [(str "c", 2%Z); (str "a", 1%Z)]
  /\ Forall (fun item => (snd item <= snd (str "b", 3%Z))%Z)
       [(str "a", 1%Z); (str "b", 3%Z); (str "c", 2%Z)].
Proof.
  split; [reflexivity|].
  exact (@sorted_items_first_is_largest
           [(str "a", 1%Z); (str "b", 3%Z); (str "c", 2%Z)]
           (str "b", 3%Z) [(str "c", 2%Z); (str "a", 1%Z)] eq_refl).
Defined.

(** ** The timing pattern *)

(** X24.  [TIME_CODE_RE] matches a line exactly when the line begins with
    two clock readings [HH:MM:SS,mmm] joined by "-->" with whitespace on
    both sides of the arrow; what follows the second reading is free. *)
Theorem TIME_CODE_RE_matches_timing_ranges : forall U line,
  TIME_CODE_RE_match U line = true
  <-> exists head trailing,
        line = head ++ trailing /\ is_timing_range U head.
Proof.
  intros U line. apply TIME_CODE_RE_match_spec.
Qed.
